(** * Transmute: the batch conversion front end (src/App.tsx)

    A shallow embedding of the logic of [App.tsx]: the file classifier
    [getFileType], the handlers [addFiles], [reset], [handleConvert] and
    [handleDownload], the drag-and-drop listener, and the views that decide
    which handler the user can reach in which [AppState].

    The program is event driven.  Every handler is a function on the session;
    an [async] handler is cut at its [await]s, the event that resumes it
    carrying what the awaited call returned.  The [FileInfo] objects live in a
    store and the arrays hold references into it, because [handleConvert]
    copies the array ([...files]) but writes to the objects both arrays
    share. *)

From Stdlib Require Import ZArith Ascii.
From Stdlib Require String.
From stdpp Require Import base tactics option list strings.

Local Open Scope Z_scope.
Local Open Scope nat_scope.

(** ** Strings

    A JavaScript string is modelled as a [string] of one-byte characters.
    [toLowerCase] maps the letters A-Z to a-z and leaves every other
    character alone, which is what the method does on ASCII text; the tables
    it is compared against are ASCII. *)

Module Js.

Definition isUpper (c : ascii) : bool :=
  (65 <=? nat_of_ascii c) && (nat_of_ascii c <=? 90).

Definition lowerChar (c : ascii) : ascii :=
  if isUpper c then ascii_of_nat (nat_of_ascii c + 32) else c.

Fixpoint toLowerCase (s : string) : string :=
  match s with
  | EmptyString => EmptyString
  | String c s' => String (lowerChar c) (toLowerCase s')
  end.

(** [s.split(sep)] for a separator that is one character out of a class
    [sep]: the pieces between the separators, in order.  The result is
    never empty: a string without separator is its own single piece. *)
Fixpoint split (sep : ascii -> bool) (s : string) : list string :=
  match s with
  | EmptyString => [EmptyString]
  | String c s' =>
      if sep c then EmptyString :: split sep s'
      else match split sep s' with
           | piece :: pieces => String c piece :: pieces
           | [] => [String c EmptyString]
           end
  end.

(** [a.pop()] read for its value: the last element, [undefined] on []. *)
Definition pop {A} (a : list A) : option A := last a.

(** [a[0]]. *)
Definition first {A} (a : list A) : option A := head a.

(** [a.includes(x)] on an array of strings. *)
Definition includes (a : list string) (x : string) : bool :=
  existsb (String.eqb x) a.

(** Truthiness of a [string | undefined | null] value: the empty string is
    falsy like [undefined]. *)
Definition truthy (v : option string) : bool :=
  match v with
  | Some s => negb (String.eqb s "")
  | None => false
  end.

(** [v || d] on such a value. *)
Definition orElse (v : option string) (d : string) : string :=
  if truthy v then default d v else d.

Definition isDot (c : ascii) : bool := Ascii.eqb c ".".
(** The class [/\\] of the regular expression in [addFiles]. *)
Definition isSlash (c : ascii) : bool :=
  Ascii.eqb c "/" || Ascii.eqb c "\".

End Js.

(** ** Types *)

Inductive FileType := video | image | audio | unknown.

Inductive AppState := IDLE | SELECTION | PROCESSING | FINISHED.

Module Status.
Inductive t := pending | converting | done | error.
End Status.

#[global] Instance FileType_eq_dec : EqDecision FileType.
Proof. solve_decision. Defined.
#[global] Instance AppState_eq_dec : EqDecision AppState.
Proof. solve_decision. Defined.
#[global] Instance Status_eq_dec : EqDecision Status.t.
Proof. solve_decision. Defined.

(** ** The file classifier *)

Definition videoExts : list string :=
  ["mp4"; "mov"; "avi"; "mkv"; "webm"; "ogv"; "flv"; "wmv"; "3gp"; "mpg";
   "vob"; "ts"; "m2ts"].
Definition imageExts : list string :=
  ["png"; "jpg"; "jpeg"; "webp"; "gif"; "avif"; "bmp"; "tiff"; "ico"; "tga";
   "svg"].
Definition audioExts : list string :=
  ["mp3"; "wav"; "m4a"; "ogg"; "flac"; "aac"; "wma"; "aiff"; "alac"; "opus"].

(** The three [if]s of [getFileType], on the lowered extension. *)
Definition typeOfExt (ext : option string) : FileType :=
  if Js.includes videoExts (Js.orElse ext "") then video
  else if Js.includes imageExts (Js.orElse ext "") then image
  else if Js.includes audioExts (Js.orElse ext "") then audio
  else unknown.

Definition getFileType (name : string) : FileType :=
  let ext := Js.toLowerCase <$> Js.pop (Js.split Js.isDot name) in
  typeOfExt ext.

(** ** Constants *)

Definition FORMATS (t : FileType) : option (list string) :=
  match t with
  | video => Some ["MP4"; "GIF"; "MKV"; "AVI"; "MOV"; "WEBM"; "OGV"; "FLV";
                   "WMV"; "3GP"; "MPG"; "VOB"; "TS"; "M2TS"]
  | image => Some ["PNG"; "JPG"; "WEBP"; "AVIF"; "BMP"; "TIFF"; "ICO"; "TGA";
                   "SVG"]
  | audio => Some ["MP3"; "WAV"; "M4A"; "OGG"; "FLAC"; "AAC"; "WMA"; "AIFF";
                   "ALAC"; "OPUS"]
  | unknown => None
  end.

(** ** The data model *)

Record FileInfo := {
  path : string;
  name : string;
  type : FileType;
  status : option Status.t;
  convertedPath : option string
}.

#[global] Instance FileInfo_inhabited : Inhabited FileInfo :=
  populate {| path := ""; name := ""; type := unknown;
              status := None; convertedPath := None |}.

Definition set_status (v : Status.t) (f : FileInfo) : FileInfo :=
  {| path := path f; name := name f; type := type f;
     status := Some v; convertedPath := convertedPath f |}.

Definition set_convertedPath (v : string) (f : FileInfo) : FileInfo :=
  {| path := path f; name := name f; type := type f;
     status := status f; convertedPath := Some v |}.

(** A reference to a [FileInfo] object: its index in the store. *)
Abbreviation ref := nat (only parsing).

(** What the outside world is asked to do, in the order it is asked. *)
Inductive Call :=
| convert_file (filePath outputFormat : string)
| save_file_locally (source destination : string)
| open_files
| open_directory
| save_dialog (defaultPath filterName : string) (extensions : list string).

(** The only callback the program ever hands to [setTimeout]. *)
Inductive Callback := SetState (target : AppState).

Record Timeout := { delay : Z; callback : Callback }.

(** [handleConvert] suspended at [await invoke('convert_file', ...)]: the
    locals of its closure. *)
Module Task.
Record t := {
  updatedFiles : list ref;
  i : nat;
  startTime : Z;
  format : string
}.
Definition next (k : t) : t :=
  {| updatedFiles := updatedFiles k; i := S (i k);
     startTime := startTime k; format := format k |}.
End Task.

Record Session := {
  (* the React state of [App] *)
  state : AppState;
  files : list ref;
  format : string;
  error : option string;
  progress : Z;
  (* the objects the arrays point to *)
  heap : list FileInfo;
  (* the suspended [handleConvert], if one is running *)
  running : option Task.t;
  (* pending [setTimeout]s *)
  timeouts : list Timeout;
  (* what was asked of the backend and the dialogs, and the console *)
  calls : list Call;
  console : list string
}.

Definition setState (v : AppState) (s : Session) : Session :=
  {| state := v; files := files s; format := format s; error := error s;
     progress := progress s; heap := heap s; running := running s;
     timeouts := timeouts s; calls := calls s; console := console s |}.
Definition setFiles (v : list ref) (s : Session) : Session :=
  {| state := state s; files := v; format := format s; error := error s;
     progress := progress s; heap := heap s; running := running s;
     timeouts := timeouts s; calls := calls s; console := console s |}.
Definition setFormat (v : string) (s : Session) : Session :=
  {| state := state s; files := files s; format := v; error := error s;
     progress := progress s; heap := heap s; running := running s;
     timeouts := timeouts s; calls := calls s; console := console s |}.
Definition setError (v : option string) (s : Session) : Session :=
  {| state := state s; files := files s; format := format s; error := v;
     progress := progress s; heap := heap s; running := running s;
     timeouts := timeouts s; calls := calls s; console := console s |}.
Definition setProgress (v : Z) (s : Session) : Session :=
  {| state := state s; files := files s; format := format s; error := error s;
     progress := v; heap := heap s; running := running s;
     timeouts := timeouts s; calls := calls s; console := console s |}.
Definition with_heap (v : list FileInfo) (s : Session) : Session :=
  {| state := state s; files := files s; format := format s; error := error s;
     progress := progress s; heap := v; running := running s;
     timeouts := timeouts s; calls := calls s; console := console s |}.
Definition with_running (v : option Task.t) (s : Session) : Session :=
  {| state := state s; files := files s; format := format s; error := error s;
     progress := progress s; heap := heap s; running := v;
     timeouts := timeouts s; calls := calls s; console := console s |}.
Definition with_timeouts (v : list Timeout) (s : Session) : Session :=
  {| state := state s; files := files s; format := format s; error := error s;
     progress := progress s; heap := heap s; running := running s;
     timeouts := v; calls := calls s; console := console s |}.

(** [invoke], [open] and [save]: the request is appended to the trace. *)
Definition call (c : Call) (s : Session) : Session :=
  {| state := state s; files := files s; format := format s; error := error s;
     progress := progress s; heap := heap s; running := running s;
     timeouts := timeouts s; calls := calls s ++ [c]; console := console s |}.
Definition console_error (msg : string) (s : Session) : Session :=
  {| state := state s; files := files s; format := format s; error := error s;
     progress := progress s; heap := heap s; running := running s;
     timeouts := timeouts s; calls := calls s; console := console s ++ [msg] |}.

(** Assignment to a field of the object behind [r]. *)
Definition write (r : ref) (g : FileInfo -> FileInfo) (s : Session) : Session :=
  with_heap (alter g r (heap s)) s.

Definition deref (s : Session) (r : ref) : FileInfo := heap s !!! r.

(** The batch as the views read it: the objects of [files], in order. *)
Definition batch (s : Session) : list FileInfo := deref s <$> files s.

(** [useState] initial values. *)
Definition init : Session :=
  {| state := IDLE; files := []; format := "MP4"; error := None;
     progress := 0; heap := []; running := None; timeouts := [];
     calls := []; console := [] |}.

(** ** Handlers *)

(** The object [addFiles] builds for one path. *)
Definition newFile (path : string) : FileInfo :=
  let name := Js.orElse (Js.pop (Js.split Js.isSlash path)) "Unknown File" in
  {| path := path; name := name; type := getFileType name;
     status := Some Status.pending; convertedPath := None |}.

(** The format [addFiles] derives from the first file. *)
Definition autoFormat (firstType : option FileType) : string :=
  match firstType with
  | Some image => "PNG"
  | Some audio => "MP3"
  | _ => "MP4"
  end.

Definition addFiles (paths : list string) (s : Session) : Session :=
  if length paths =? 0 then s
  else
    (* the new objects go to the end of the store *)
    let newFiles := seq (length (heap s)) (length paths) in
    let s := with_heap (heap s ++ (newFile <$> paths)) s in
    let prev := files s in
    let combined := prev ++ newFiles in
    let s :=
      if (0 <? length combined) && (length prev =? 0)
      then setFormat (autoFormat (type <$> (deref s <$> combined !! 0))) s
      else s in
    setState SELECTION (setFiles combined s).

(** What [open({ multiple: true, ... })] gave back. *)
Inductive Selected :=
| SelectedPaths (paths : list string)
| SelectedPath (p : string)
| SelectedNull
| SelectedThrew (err : string).

Definition openFilePicker (selected : Selected) (s : Session) : Session :=
  let s := call open_files s in
  match selected with
  | SelectedPaths paths => addFiles paths s
  | SelectedPath p => if Js.truthy (Some p) then addFiles [p] s else s
  | SelectedNull => s
  | SelectedThrew err => console_error err s
  end.

Definition reset (s : Session) : Session :=
  setProgress 0 (setError None (setFiles [] (setState IDLE s))).

(** The listener on [tauri://drag-drop]. *)
Definition onDragDrop (paths : list string) (s : Session) : Session :=
  if decide (state s = PROCESSING) then s else addFiles paths s.

(** *** [handleConvert]

    The interval that feeds the progress bar while the loop runs only ever
    writes [progress], between 0 and 90; it is not modelled. *)

(** The end of the [try] block, after the loop; [now] is what [Date.now()]
    reads there. *)
Definition afterLoop (now : Z) (k : Task.t) (s : Session) : Session :=
  let s := setProgress 100 s in
  let s := setFiles (Task.updatedFiles k) s in
  let s := with_running None s in
  let duration := (now - Task.startTime k)%Z in
  if (duration <? 3000)%Z then setState FINISHED s
  else with_timeouts
         (timeouts s ++ [{| delay := 500; callback := SetState FINISHED |}]) s.

(** The loop from its test [i < updatedFiles.length] to the next [await]. *)
Definition loop (now : Z) (k : Task.t) (s : Session) : Session :=
  if Task.i k <? length (Task.updatedFiles k) then
    match Task.updatedFiles k !! Task.i k with
    | Some r =>
        let s := write r (set_status Status.converting) s in
        let s := call (convert_file (path (deref s r)) (Task.format k)) s in
        with_running (Some k) s
    | None => s
    end
  else afterLoop now k s.

(** From the click to the first [await]. *)
Definition handleConvert (now : Z) (s : Session) : Session :=
  if length (files s) =? 0 then s
  else
    let s := setState PROCESSING s in
    let s := setError None s in
    let s := setProgress 0 s in
    loop now {| Task.startTime := now; Task.updatedFiles := files s;
                Task.i := 0; Task.format := format s |} s.

(** How [invoke('convert_file', ...)] settles. *)
Inductive Reply :=
| Resolved (result : string)
| Rejected (e : string).

(** From one [await] to the next, or to the end. *)
Definition resume (reply : Reply) (now : Z) (s : Session) : Session :=
  match running s with
  | Some k =>
      match Task.updatedFiles k !! Task.i k with
      | Some r =>
          let s :=
            match reply with
            | Resolved result =>
                let s := write r (set_convertedPath result) s in
                write r (set_status Status.done) s
            | Rejected e =>
                let s := console_error e s in
                write r (set_status Status.error) s
            end in
          loop now (Task.next k) s
      | None => s
      end
  | None => s
  end.

(** A timeout expires: its callback runs. *)
Definition timeoutFires (s : Session) : Session :=
  match timeouts s with
  | {| callback := SetState target |} :: rest =>
      setState target (with_timeouts rest s)
  | [] => s
  end.

(** Nothing between the outer [try] and its [catch] can throw here: the
    engine's rejection is caught inside the loop, and the other statements
    are assignments to objects that exist and calls of React setters and
    timers.  The outer [catch] therefore has no transition. *)

(** *** [handleDownload] *)

(** How a dialog settles: it throws, or returns a path or [null]. *)
Inductive Answer :=
| Threw
| Returned (v : option string).

(** [name.split('.')[0]]; [split] never returns an empty array. *)
Definition stem (name : string) : string :=
  default "" (Js.first (Js.split Js.isDot name)).

(** The single file branch.  [copies] scripts the copy primitive: its k-th
    element tells whether the k-th copy succeeds, a copy beyond the script
    succeeds. *)
Definition saveOne (file : FileInfo) (answer : Answer) (copies : list bool)
    (s : Session) : Session :=
  let ext := Js.toLowerCase (format s) in
  let s := call (save_dialog
                   ("converted_" +:+ stem (name file) +:+ "." +:+ ext +:+ " ")
                   (format s) [ext]) s in
  match answer with
  | Threw => setError (Some "Failed to save file") s
  | Returned savePath =>
      if Js.truthy savePath then
        let s := call (save_file_locally (default "" (convertedPath file))
                                         (default "" savePath)) s in
        match copies with
        | false :: _ => setError (Some "Failed to save file") s
        | _ => s
        end
      else s
  end.

(** The [for ... of] loop of the batch branch; [false] when a copy threw. *)
Fixpoint saveEach (selectedDir : string) (todo : list ref)
    (copies : list bool) (s : Session) : Session * bool :=
  match todo with
  | [] => (s, true)
  | r :: todo' =>
      let file := deref s r in
      if Js.truthy (convertedPath file)
         && bool_decide (status file = Some Status.done)
      then
        let ext := Js.toLowerCase (format s) in
        let s := call (save_file_locally
                         (default "" (convertedPath file))
                         (selectedDir +:+ "/converted_" +:+ stem (name file)
                                      +:+ "." +:+ ext)) s in
        match copies with
        | false :: _ => (s, false)
        | _ => saveEach selectedDir todo' (tail copies) s
        end
      else saveEach selectedDir todo' copies s
  end.

Definition handleDownload (answer : Answer) (copies : list bool)
    (s : Session) : Session :=
  if (length (files s) =? 1)
     && Js.truthy (convertedPath (deref s (default 0 (files s !! 0))))
  then saveOne (deref s (default 0 (files s !! 0))) answer copies s
  else if 1 <? length (files s) then
    let s := call open_directory s in
    match answer with
    | Threw => setError (Some "Failed to save files") s
    | Returned selectedDir =>
        if Js.truthy selectedDir then
          let '(s, ok) := saveEach (default "" selectedDir) (files s) copies s in
          if ok then s else setError (Some "Failed to save files") s
        else s
    end
  else s.

(** ** Views *)

(** The options of the format dropdown in the SELECTION view. *)
Definition formatOptions (s : Session) : list string :=
  let key :=
    match type <$> (deref s <$> files s !! 0) with
    | Some unknown => Some video
    | t => t
    end in
  default (default [] (FORMATS video)) (key ≫= FORMATS).

(** The number the FINISHED view shows before "files ready to save". *)
Definition readyToSave (s : Session) : nat :=
  length (filter (λ f, status f = Some Status.done) (batch s)).

(** ** Events

    What can happen to a session, and in which state.  The buttons exist only
    in the view of their state; the dialogs are modal, so that a handler
    waiting for one is resumed in the state it was started in. *)
Inductive Event :=
| ClickPick (selected : Selected)
| DragDrop (paths : list string)
| SelectFormat (fmt : string)
| ClickConvert (now : Z)
| ClickReset
| ClickDownload (answer : Answer) (copies : list bool)
| ClickDismiss
| EngineReply (reply : Reply) (now : Z)
| TimeoutFires.

Definition enabled (e : Event) (s : Session) : bool :=
  match e with
  | ClickPick _ => bool_decide (state s = IDLE)
  | DragDrop _ => true
  | SelectFormat fmt =>
      bool_decide (state s = SELECTION) && Js.includes (formatOptions s) fmt
  | ClickConvert _ => bool_decide (state s = SELECTION)
  | ClickReset =>
      bool_decide (state s = SELECTION) || bool_decide (state s = FINISHED)
  | ClickDownload _ _ => bool_decide (state s = FINISHED)
  | ClickDismiss => bool_decide (error s ≠ None)
  | EngineReply _ _ => bool_decide (running s ≠ None)
  | TimeoutFires => bool_decide (timeouts s ≠ [])
  end.

Definition handle (e : Event) (s : Session) : Session :=
  match e with
  | ClickPick selected => openFilePicker selected s
  | DragDrop paths => onDragDrop paths s
  | SelectFormat fmt => setFormat fmt s
  | ClickConvert now => handleConvert now s
  | ClickReset => reset s
  | ClickDownload answer copies => handleDownload answer copies s
  | ClickDismiss => setError None s
  | EngineReply reply now => resume reply now s
  | TimeoutFires => timeoutFires s
  end.

Definition fire (s : Session) (e : Event) : Session :=
  if enabled e s then handle e s else s.

Definition exec (evs : list Event) (s : Session) : Session :=
  foldl fire s evs.

(** The sessions the program can be in. *)
Definition reachable (s : Session) : Prop := ∃ evs, exec evs init = s.

(** One conversion run: the click, then one reply of the engine per file. *)
Definition runEvents (t0 : Z) (replies : list (Reply * Z)) : list Event :=
  ClickConvert t0 :: ((λ p, EngineReply p.1 p.2) <$> replies).

Definition run (t0 : Z) (replies : list (Reply * Z)) (s : Session) : Session :=
  exec (runEvents t0 replies) s.

Definition statuses (s : Session) : list (option Status.t) :=
  status <$> batch s.


(** ** Specification-level notions *)

(** The extension of a filename in the usual sense: the text after its last
    dot; a filename without a dot has none. *)
Fixpoint extensionOf (name : string) : option string :=
  match name with
  | EmptyString => None
  | String c rest =>
      match extensionOf rest with
      | Some e => Some e
      | None => if Js.isDot c then Some rest else None
      end
  end.

(** What [getFileType] looks up instead: the extension, or the whole name
    when there is no dot. *)
Definition lastPiece (name : string) : string :=
  default name (extensionOf name).

Definition extensionTable : list string := videoExts ++ imageExts ++ audioExts.

(** The one timeout the program sets: the pause before the FINISHED view. *)
Definition pacing : Timeout := {| delay := 500; callback := SetState FINISHED |}.

(** What holds of every session the program can be in: the references of the
    batch are distinct and point into the store; the batch is empty exactly
    in IDLE; a conversion is suspended, or the pacing timeout pending, only
    in PROCESSING, and the suspended conversion works on the references of
    [files]. *)
Record wf (s : Session) : Prop := {
  wf_nodup : NoDup (files s);
  wf_valid : Forall (λ r, r < length (heap s)) (files s);
  wf_idle : state s = IDLE → files s = [];
  wf_nonempty : state s ≠ IDLE → files s ≠ [];
  wf_quiet : state s ≠ PROCESSING → running s = None ∧ timeouts s = [];
  wf_processing :
    state s = PROCESSING →
    match running s with
    | Some k =>
        Task.updatedFiles k = files s ∧ Task.i k < length (files s)
        ∧ timeouts s = []
    | None => timeouts s = [pacing]
    end
}.

(** [s'] differs from [s] at most in the error message and in the trace of
    calls. *)
Definition sameButErrorAndCalls (s s' : Session) : Prop :=
  state s' = state s ∧ files s' = files s ∧ format s' = format s
  ∧ progress s' = progress s ∧ heap s' = heap s ∧ running s' = running s
  ∧ timeouts s' = timeouts s ∧ console s' = console s.

(** ** The conversion loop on the batch

    What one pass of the loop body does to the object it works on, and the
    batch a run has made out of [b] once the engine has answered [rs]: the
    files answered for are settled, the next one is being converted, the
    rest is untouched. *)
Definition settle (reply : Reply) (f : FileInfo) : FileInfo :=
  match reply with
  | Resolved result => set_status Status.done (set_convertedPath result f)
  | Rejected _ => set_status Status.error f
  end.

Definition midRun (b : list FileInfo) (rs : list Reply) : list FileInfo :=
  zip_with settle rs b
  ++ alter (set_status Status.converting) 0 (drop (length rs) b).

(** The request the loop sends for a file. *)
Definition invocation (fmt : string) (f : FileInfo) : Call :=
  convert_file (path f) fmt.

(** What the loop writes to the console. *)
Definition rejections (rs : list Reply) : list string :=
  omap (λ r, match r with Rejected e => Some e | Resolved _ => None end) rs.

(** The session is suspended in a run started from [s0] at [t0], the engine
    having answered [rs] so far. *)
Definition awaiting (s0 : Session) (t0 : Z) (rs : list Reply) (s : Session)
    : Prop :=
  state s = PROCESSING ∧ files s = files s0 ∧ format s = format s0
  ∧ error s = None ∧ progress s = 0%Z ∧ timeouts s = []
  ∧ running s = Some {| Task.updatedFiles := files s0; Task.i := length rs;
                        Task.startTime := t0; Task.format := format s0 |}
  ∧ batch s = midRun (batch s0) rs
  ∧ calls s = calls s0
              ++ (invocation (format s0) <$> take (S (length rs)) (batch s0))
  ∧ console s = console s0 ++ rejections rs.

(** The run started from [s0] at [t0] has left its loop at [tEnd], the engine
    having answered [rs]. *)
Definition settled (s0 : Session) (t0 : Z) (rs : list Reply) (tEnd : Z)
    (s : Session) : Prop :=
  files s = files s0 ∧ format s = format s0 ∧ error s = None
  ∧ progress s = 100%Z ∧ running s = None
  ∧ batch s = zip_with settle rs (batch s0)
  ∧ calls s = calls s0 ++ (invocation (format s0) <$> batch s0)
  ∧ console s = console s0 ++ rejections rs
  ∧ if (tEnd - t0 <? 3000)%Z
    then state s = FINISHED ∧ timeouts s = []
    else state s = PROCESSING ∧ timeouts s = [pacing].

(** ** Observing a run *)

Definition isResolved (r : Reply) : bool :=
  match r with Resolved _ => true | Rejected _ => false end.

(** The status a reply leaves on the file it answers for. *)
Definition outcome (r : Reply) : Status.t :=
  if isResolved r then Status.done else Status.error.

(** A run brought to its end: the click, one reply per file, and the pacing
    timeout, which is only there to fire when the run was slow. *)
Definition finish (t0 : Z) (replies : list (Reply * Z)) (s : Session) : Session :=
  fire (run t0 replies s) TimeoutFires.

(** The sessions an execution goes through, the first one included. *)
Fixpoint trail (evs : list Event) (s : Session) : list Session :=
  s :: match evs with
       | [] => []
       | e :: evs' => trail evs' (fire s e)
       end.

(** How many times a sequence of states enters [st] from another state. *)
Fixpoint arrivals (st : AppState) (l : list AppState) : nat :=
  match l with
  | a :: l' =>
      match l' with
      | b :: _ => (if bool_decide (a ≠ st ∧ b = st) then 1 else 0)
                  + arrivals st l'
      | [] => 0
      end
  | [] => 0
  end.

(** ** Result path and status *)

(** What always holds of an object: done comes with a result path, pending
    with none. *)
Definition sound (f : FileInfo) : Prop :=
  (status f = Some Status.done → is_Some (convertedPath f))
  ∧ (status f = Some Status.pending → convertedPath f = None).

(** The result path is there exactly when the status is done. *)
Definition consistent (f : FileInfo) : Prop :=
  is_Some (convertedPath f) ↔ status f = Some Status.done.

(** The three stages of a file that is converted once. *)
Definition untouched (f : FileInfo) : Prop :=
  status f = Some Status.pending ∧ convertedPath f = None.
Definition inTurn (f : FileInfo) : Prop :=
  status f = Some Status.converting ∧ convertedPath f = None.
Definition settledFile (f : FileInfo) : Prop :=
  (status f = Some Status.done ∧ is_Some (convertedPath f))
  ∨ (status f = Some Status.error ∧ convertedPath f = None).

(** The stage the j-th file of the batch is in when no file of the batch has
    been through a run before. *)
Definition expected (s : Session) (j : nat) (f : FileInfo) : Prop :=
  match state s, running s with
  | PROCESSING, Some k =>
      if decide (j < Task.i k) then settledFile f
      else if decide (j = Task.i k) then inTurn f
      else untouched f
  | PROCESSING, None | FINISHED, _ => settledFile f
  | _, _ => untouched f
  end.

Definition firstTime (s : Session) : Prop :=
  ∀ j f, batch s !! j = Some f → expected s j f.

(** The event drops files on a batch that has been converted. *)
Definition addsToFinished (s : Session) (e : Event) : bool :=
  match e with
  | DragDrop (_ :: _) => bool_decide (state s = FINISHED)
  | _ => false
  end.

(** No event of the execution does. *)
Fixpoint neverAddsToFinished (evs : list Event) (s : Session) : bool :=
  match evs with
  | [] => true
  | e :: evs' =>
      negb (addsToFinished s e) && neverAddsToFinished evs' (fire s e)
  end.

(** ** Export *)

(** The name without its extension: the text before its last dot, or the
    whole name when it has no dot. *)
Fixpoint withoutExtension (name : string) : string :=
  match name with
  | EmptyString => EmptyString
  | String c rest =>
      match extensionOf rest with
      | Some _ => String c (withoutExtension rest)
      | None => if Js.isDot c then EmptyString
                else String c (withoutExtension rest)
      end
  end.

(** The text before the first dot, or the whole name when it has no dot. *)
Fixpoint beforeFirstDot (name : string) : string :=
  match name with
  | EmptyString => EmptyString
  | String c rest =>
      if Js.isDot c then EmptyString else String c (beforeFirstDot rest)
  end.

(** The files the batch branch of the export copies. *)
Definition exportable (f : FileInfo) : Prop :=
  Js.truthy (convertedPath f) = true ∧ status f = Some Status.done.

(** Where it copies them to, and the request it sends. *)
Definition destination (selectedDir fmt : string) (f : FileInfo) : string :=
  selectedDir +:+ "/converted_" +:+ stem (name f) +:+ "."
              +:+ Js.toLowerCase fmt.

Definition copyOf (selectedDir fmt : string) (f : FileInfo) : Call :=
  save_file_locally (default "" (convertedPath f))
                    (destination selectedDir fmt f).

(** The destination with the stem read as the name without its extension. *)
Definition destinationByExtension (selectedDir fmt : string) (f : FileInfo)
    : string :=
  selectedDir +:+ "/converted_" +:+ withoutExtension (name f) +:+ "."
              +:+ Js.toLowerCase fmt.

Definition isCopy (c : Call) : bool :=
  match c with save_file_locally _ _ => true | _ => false end.

(** The copies asked for so far. *)
Definition copies_of (s : Session) : list Call :=
  filter (λ c, isCopy c) (calls s).

(** ** The rest of the user interface *)

(** The line under the icon of the SELECTION view. *)
Definition getFileSummary (s : Session) : string :=
  match files s with
  | [] => ""
  | [r] => name (deref s r)
  | r :: _ => name (deref s r) +:+ "..."
  end.

(** [hooks/useFunnyMessages.ts]: [index] is the local of the effect,
    [message] the state the hook returns; [None] stands for [undefined]. *)
Module FunnyMessages.

Definition MESSAGES : list string :=
  ["Dividing by zero (just kidding)...";
   "Convincing the bits to cooperate...";
   "Spinning up the flux capacitor...";
   "Asking AI for permission...";
   "Reticulating splines...";
   "Downloading more RAM...";
   "Calculating the meaning of life...";
   "Brewing virtual coffee..."].

Record Hook := { index : nat; message : option string }.

(** [useState(MESSAGES[0])] and [let index = 0]. *)
Definition mount : Hook := {| index := 0; message := MESSAGES !! 0 |}.

(** The callback of the interval. *)
Definition tick (h : Hook) : Hook :=
  let index := (index h + 1) mod length MESSAGES in
  {| index := index; message := MESSAGES !! index |}.

Definition after (n : nat) : Hook := Nat.iter n tick mount.

End FunnyMessages.

(** ** More specification-level notions *)

(** Some character of the string is in the class. *)
Fixpoint anyChar (p : ascii → bool) (s : string) : bool :=
  match s with
  | EmptyString => false
  | String c s' => p c || anyChar p s'
  end.

(** The text after the last separator, when there is a separator. *)
Fixpoint afterLast (sep : ascii → bool) (s : string) : option string :=
  match s with
  | EmptyString => None
  | String c rest =>
      match afterLast sep rest with
      | Some e => Some e
      | None => if sep c then Some rest else None
      end
  end.

(** The fields of a file that say which file it is. *)
Definition sameIdentity (f f' : FileInfo) : Prop :=
  path f' = path f ∧ name f' = name f ∧ type f' = type f.

(** What [addFiles] establishes of an object and every later write keeps. *)
Definition wellFormedFile (f : FileInfo) : Prop :=
  name f = name (newFile (path f)) ∧ type f = getFileType (name f)
  ∧ name f ≠ "" ∧ is_Some (status f).

(** Every object of [s] is still there in [s'], changed at most as [R]
    allows. *)
Definition evolves (R : FileInfo → FileInfo → Prop) (s s' : Session) : Prop :=
  ∀ r f, heap s !! r = Some f → ∃ f', heap s' !! r = Some f' ∧ R f f'.

(** What may happen to a file over time: it stays the same file, and once it
    has left pending it does not come back to it. *)
Definition sameFileLater (f f' : FileInfo) : Prop :=
  sameIdentity f f'
  ∧ (status f ≠ Some Status.pending → status f' ≠ Some Status.pending).

(** * Properties *)

Example getFileType_mov : getFileType "holiday.MOV" = video.
Proof. reflexivity. Qed.
Example getFileType_tar_gz : getFileType "backup.tar.gz" = unknown.
Proof. reflexivity. Qed.
Example getFileType_jpeg : getFileType "a.b.JpEg" = image.
Proof. reflexivity. Qed.
Example getFileType_trailing_dot : getFileType "song.mp3." = unknown.
Proof. reflexivity. Qed.

Example run_error_done_done :
  let s := exec [ClickPick (SelectedPaths ["/in/A.mov"; "/in/B.mov"; "/in/C.mov"])]
                init in
  let s' := run 0 [(Rejected "no codec", 10%Z); (Resolved "/tmp/B.mp4", 20%Z);
                   (Resolved "/tmp/C.mp4", 30%Z)] s in
  statuses s' = [Some Status.error; Some Status.done; Some Status.done]
  ∧ state s' = FINISHED ∧ readyToSave s' = 2.
Proof. vm_compute. done. Qed.


(** ** The classifier *)

Lemma split_pieces name :
  match extensionOf name with
  | None => Js.split Js.isDot name = [name]
  | Some e => ∃ p ps, Js.split Js.isDot name = p :: ps ++ [e]
  end.
Proof.
  induction name as [|c rest IH]; [done|].
  cbn [extensionOf Js.split].
  destruct (extensionOf rest) as [e|].
  - destruct IH as (p & ps & ->).
    destruct (Js.isDot c); [by exists "", (p :: ps)|by exists (String c p), ps].
  - rewrite IH. destruct (Js.isDot c); [by exists "", []|done].
Qed.

Lemma pop_split name : Js.pop (Js.split Js.isDot name) = Some (lastPiece name).
Proof.
  unfold lastPiece, Js.pop. pose proof (split_pieces name) as H.
  destruct (extensionOf name) as [e|].
  - destruct H as (p & ps & ->).
    change (p :: ps ++ [e]) with ((p :: ps) ++ [e]). apply last_snoc.
  - by rewrite H.
Qed.

Lemma orElse_empty e : Js.orElse (Some e) "" = e.
Proof.
  unfold Js.orElse, Js.truthy.
  destruct (String.eqb_spec e ""); by subst.
Qed.

Lemma includes_elem_of a x : Js.includes a x = true ↔ x ∈ a.
Proof.
  unfold Js.includes. rewrite existsb_exists. split.
  - intros (y & Hy & Heq). apply String.eqb_eq in Heq as ->.
    by apply list_elem_of_In.
  - intros Hx. exists x. split; [by apply list_elem_of_In|apply String.eqb_refl].
Qed.

Lemma includes_not_elem_of a x : Js.includes a x = false ↔ x ∉ a.
Proof. rewrite <- includes_elem_of. by destruct (Js.includes a x). Qed.

Lemma getFileType_lastPiece name :
  getFileType name = typeOfExt (Some (Js.toLowerCase (lastPiece name))).
Proof. unfold getFileType. by rewrite pop_split. Qed.

Lemma typeOfExt_unknown e :
  typeOfExt (Some e) = unknown ↔ e ∉ extensionTable.
Proof.
  unfold typeOfExt, extensionTable. rewrite orElse_empty.
  rewrite !not_elem_of_app, <- !includes_not_elem_of.
  destruct (Js.includes videoExts e), (Js.includes imageExts e),
    (Js.includes audioExts e); intuition congruence.
Qed.

(** C5 (as amended).  [getFileType] classifies a name by the text after its
    last dot, or by the whole name when it has no dot: it looks that text up,
    lowered, in the fixed table.  Two names whose last pieces agree up to
    case get the same category, and the category is unknown exactly when the
    lowered last piece is not in the table. *)
Theorem getFileType_by_last_piece :
  ∀ name,
    getFileType name = typeOfExt (Some (Js.toLowerCase (lastPiece name)))
    ∧ (∀ name',
          Js.toLowerCase (lastPiece name') = Js.toLowerCase (lastPiece name) →
          getFileType name' = getFileType name)
    ∧ (getFileType name = unknown ↔
       Js.toLowerCase (lastPiece name) ∉ extensionTable).
Proof.
  intros name. split; [apply getFileType_lastPiece|]. split.
  - intros name' Heq. by rewrite !getFileType_lastPiece, Heq.
  - rewrite getFileType_lastPiece. apply typeOfExt_unknown.
Qed.

(** C5 (as stated) fails: a name without any extension is not always
    classified as unknown. *)
Lemma getFileType_absent_extension_counterexample :
  ¬ (∀ name, extensionOf name = None → getFileType name = unknown).
Proof. intros H. by specialize (H "mp4" eq_refl). Qed.

(** ** Adding files *)

Lemma length_newFiles (paths : list string) (s : Session) :
  length (newFile <$> paths) = length paths.
Proof. apply length_fmap. Qed.

Lemma addFiles_nil s : addFiles [] s = s.
Proof. done. Qed.

Lemma addFiles_files p ps s :
  files (addFiles (p :: ps) s)
  = files s ++ seq (length (heap s)) (length (p :: ps)).
Proof. unfold addFiles. cbn [length Nat.eqb]. by case_match. Qed.

Lemma addFiles_heap p ps s :
  heap (addFiles (p :: ps) s) = heap s ++ (newFile <$> p :: ps).
Proof. unfold addFiles. cbn [length Nat.eqb]. by case_match. Qed.

Lemma addFiles_state p ps s : state (addFiles (p :: ps) s) = SELECTION.
Proof. done. Qed.

Lemma addFiles_rest p ps s :
  let s' := addFiles (p :: ps) s in
  error s' = error s ∧ progress s' = progress s ∧ running s' = running s
  ∧ timeouts s' = timeouts s ∧ calls s' = calls s ∧ console s' = console s.
Proof. unfold addFiles. cbn [length Nat.eqb]. by case_match. Qed.

Lemma addFiles_format_nonempty paths s :
  files s ≠ [] → format (addFiles paths s) = format s.
Proof.
  intros Hne. destruct paths as [|p ps]; [done|].
  unfold addFiles. cbn [length Nat.eqb]. cbn [files with_heap].
  destruct (files s) as [|r rs] eqn:Hf; [done|].
  cbn [length Nat.eqb andb]. by rewrite andb_false_r.
Qed.

Lemma addFiles_format_empty p ps s :
  files s = [] →
  format (addFiles (p :: ps) s) = autoFormat (Some (type (newFile p))).
Proof.
  intros Hnil. unfold addFiles. cbn [length Nat.eqb]. cbn [files with_heap].
  rewrite Hnil. cbn [app length Nat.eqb Nat.ltb Nat.leb andb seq lookup
    list_lookup fmap option_fmap option_map].
  cbn [format setState setFiles setFormat]. do 2 f_equal.
  unfold deref. cbn [heap with_heap].
  change (list_fmap _ _ newFile (p :: ps)) with (newFile p :: (newFile <$> ps)).
  by rewrite list_lookup_total_middle.
Qed.

(** C4.  Files added to an empty batch select the format by the category of
    the first of them: PNG for an image, MP3 for audio, MP4 for video and
    for unknown; files added to a batch that is not empty leave the format
    as it was. *)
Theorem addFiles_selects_format :
  (∀ s p ps,
      files s = [] →
      let s' := addFiles (p :: ps) s in
      ∃ first,
        batch s' !! 0 = Some first
        ∧ type first = getFileType (name first)
        ∧ format s' = match type first with
                      | image => "PNG"
                      | audio => "MP3"
                      | video | unknown => "MP4"
                      end)
  ∧ (∀ s paths, files s ≠ [] → format (addFiles paths s) = format s).
Proof.
  split; [|intros s paths; apply addFiles_format_nonempty].
  intros s p ps Hnil s'. exists (newFile p). split; [|split].
  - unfold s', batch. rewrite addFiles_files, Hnil.
    cbn [app length seq fmap list_fmap lookup list_lookup].
    f_equal. unfold deref. rewrite addFiles_heap, fmap_cons.
    by rewrite list_lookup_total_middle.
  - done.
  - unfold s'. rewrite addFiles_format_empty by done.
    by destruct (type (newFile p)).
Qed.

Lemma addFiles_selects_format_witness :
  (∃ first,
      batch (addFiles ["/music/intro.WAV"; "/clips/a.mp4"] init) !! 0
      = Some first
      ∧ type first = getFileType (name first)
      ∧ format (addFiles ["/music/intro.WAV"; "/clips/a.mp4"] init)
        = match type first with
          | image => "PNG"
          | audio => "MP3"
          | video | unknown => "MP4"
          end)
  ∧ format (addFiles ["/b.png"] (addFiles ["/a.mp3"] init)) = "MP3".
Proof.
  split.
  - apply (proj1 addFiles_selects_format init). reflexivity.
  - rewrite (proj2 addFiles_selects_format (addFiles ["/a.mp3"] init));
      [reflexivity|discriminate].
Defined.

(** ** Well-formed sessions *)

Lemma exec_snoc evs e s : exec (evs ++ [e]) s = fire (exec evs s) e.
Proof. unfold exec. by rewrite foldl_app. Qed.

Lemma exec_app evs1 evs2 s : exec (evs1 ++ evs2) s = exec evs2 (exec evs1 s).
Proof. unfold exec. by rewrite foldl_app. Qed.

Lemma exec_cons e evs s : exec (e :: evs) s = exec evs (fire s e).
Proof. done. Qed.

(** An invariant of the steps holds along every execution. *)
Lemma exec_invariant (P : Session → Prop) :
  (∀ s e, P s → P (fire s e)) → ∀ evs s, P s → P (exec evs s).
Proof.
  intros Hstep evs. induction evs as [|e evs IH]; intros s Hs; [done|].
  rewrite exec_cons. apply IH, Hstep, Hs.
Qed.

Lemma reachable_invariant (P : Session → Prop) :
  P init → (∀ s e, P s → P (fire s e)) → ∀ s, reachable s → P s.
Proof. intros Hinit Hstep s [evs <-]. by apply exec_invariant. Qed.

Lemma reachable_init : reachable init.
Proof. by exists []. Qed.

Lemma reachable_fire s e : reachable s → reachable (fire s e).
Proof. intros [evs <-]. exists (evs ++ [e]). apply exec_snoc. Qed.

Lemma reachable_exec evs s : reachable s → reachable (exec evs s).
Proof. intros [evs0 <-]. exists (evs0 ++ evs). apply exec_app. Qed.

Lemma wf_init : wf init.
Proof. split; try done. constructor. Qed.

Lemma wf_addFiles paths s :
  wf s → state s ≠ PROCESSING → wf (addFiles paths s).
Proof.
  intros [Hnd Hval Hidle Hne Hquiet Hproc] Hstate.
  destruct paths as [|p ps]; [done|].
  destruct (addFiles_rest p ps s) as (_ & _ & Hrun & Htm & _).
  split; rewrite ?addFiles_files, ?addFiles_heap, ?addFiles_state.
  - apply NoDup_app. split; [done|]. split; [|apply NoDup_seq].
    intros r Hr Hr'. apply elem_of_seq in Hr'.
    rewrite Forall_forall in Hval. specialize (Hval r Hr). lia.
  - rewrite length_app, length_fmap. apply Forall_app. split.
    + eapply Forall_impl; [done|]. intros r Hr. cbn beta in *. lia.
    + apply Forall_forall. intros r Hr. apply elem_of_seq in Hr. lia.
  - done.
  - intros _ Hnil. apply app_eq_nil in Hnil as [_ Hnil]. done.
  - intros _. rewrite Hrun, Htm. by apply Hquiet.
  - done.
Qed.

Lemma wf_frame s s' :
  state s' = state s → files s' = files s →
  length (heap s') = length (heap s) →
  running s' = running s → timeouts s' = timeouts s →
  wf s → wf s'.
Proof.
  intros Hst Hf Hh Hr Ht [Hnd Hval Hidle Hne Hquiet Hproc].
  split; rewrite ?Hst, ?Hf, ?Hh, ?Hr, ?Ht; done.
Qed.

Lemma saveEach_frame selectedDir todo copies s :
  sameButErrorAndCalls s (saveEach selectedDir todo copies s).1
  ∧ error (saveEach selectedDir todo copies s).1 = error s.
Proof.
  revert copies s. induction todo as [|r todo IH]; intros copies s; [done|].
  cbn [saveEach]. case_match.
  - destruct copies as [|[] copies]; cbn [tail].
    + destruct (IH [] (call (save_file_locally
        (default "" (convertedPath (deref s r)))
        (selectedDir +:+ "/converted_" +:+ stem (name (deref s r)) +:+ "."
                     +:+ Js.toLowerCase (format s))) s)) as [H1 H2].
      split; [apply H1|apply H2].
    + destruct (IH copies (call (save_file_locally
        (default "" (convertedPath (deref s r)))
        (selectedDir +:+ "/converted_" +:+ stem (name (deref s r)) +:+ "."
                     +:+ Js.toLowerCase (format s))) s)) as [H1 H2].
      split; [apply H1|apply H2].
    + done.
  - apply IH.
Qed.

Lemma handleDownload_frame answer copies s :
  sameButErrorAndCalls s (handleDownload answer copies s).
Proof.
  unfold handleDownload. case_match.
  - unfold saveOne. destruct answer as [|savePath]; [done|].
    case_match; [|done]. by destruct copies as [|[] ?].
  - case_match; [|done]. destruct answer as [|selectedDir]; [done|].
    case_match; [|done].
    pose proof (saveEach_frame (default "" selectedDir)
                  (files (call open_directory s)) copies
                  (call open_directory s)) as [Hsame _].
    destruct (saveEach _ _ _ _) as [s' []]; apply Hsame.
Qed.

Lemma wf_handleDownload answer copies s :
  wf s → wf (handleDownload answer copies s).
Proof.
  destruct (handleDownload_frame answer copies s)
    as (Hst & Hf & _ & _ & Hh & Hr & Ht & _).
  apply wf_frame; by rewrite ?Hh.
Qed.

Lemma wf_write r g s : wf s → wf (write r g s).
Proof. apply wf_frame; try done. apply length_alter. Qed.

Lemma wf_loop_next now k s :
  wf s → state s = PROCESSING → running s = Some k → wf (loop now (Task.next k) s).
Proof.
  intros Hwf Hst Hrun. pose proof (wf_processing s Hwf Hst) as Hk.
  rewrite Hrun in Hk. destruct Hk as (Hfiles & Hi & Htm).
  destruct Hwf as [Hnd Hval Hidle Hne Hquiet Hproc].
  unfold loop. cbn [Task.next Task.i Task.updatedFiles].
  destruct (S (Task.i k) <? length (Task.updatedFiles k)) eqn:Hlt.
  - apply Nat.ltb_lt in Hlt.
    destruct (Task.updatedFiles k !! S (Task.i k)) as [r|] eqn:Hr.
    + split; cbn; rewrite ?length_alter, ?Hst; try done.
      * intros _. apply Hne. by rewrite Hst.
      * intros _. by rewrite <- Hfiles at 2.
    + apply lookup_ge_None in Hr. lia.
  - unfold afterLoop. cbn [Task.next Task.updatedFiles Task.startTime].
    assert (files s ≠ []) as Hfs by (apply Hne; by rewrite Hst).
    destruct (_ <? 3000)%Z; split; cbn; rewrite ?Hfiles, ?Hst, ?Htm; done.
Qed.

Lemma wf_fire s e : wf s → wf (fire s e).
Proof.
  intros Hwf. unfold fire. destruct (enabled e s) eqn:Hen; [|done].
  destruct e as [selected|paths|fmt|now| |answer copies| |reply now| ];
    cbn [enabled handle] in *.
  - apply bool_decide_eq_true in Hen.
    assert (wf (call open_files s)) as Hwf' by by apply (wf_frame s).
    unfold openFilePicker.
    destruct selected as [paths|p| |err].
    + apply wf_addFiles; [done|]. cbn. by rewrite Hen.
    + case_match; [|done]. apply wf_addFiles; [done|]. cbn. by rewrite Hen.
    + done.
    + by apply (wf_frame s).
  - unfold onDragDrop. case_decide; [done|]. by apply wf_addFiles.
  - by apply (wf_frame s).
  - apply bool_decide_eq_true in Hen.
    destruct Hwf as [Hnd Hval Hidle Hne Hquiet Hproc].
    assert (files s ≠ []) as Hfiles by (apply Hne; by rewrite Hen).
    destruct (Hquiet ltac:(by rewrite Hen)) as [Hrun Htm].
    unfold handleConvert. destruct (files s) as [|r rs] eqn:Hf; [done|].
    cbn [length Nat.eqb]. unfold loop.
    cbn [Task.i Task.updatedFiles files setProgress setError setState].
    rewrite Hf. cbn [length Nat.ltb Nat.leb lookup list_lookup].
    split; cbn; rewrite ?length_alter, ?Hf; try done.
    intros _. split; [done|]. split; [cbn [length]; lia|done].
  - destruct Hwf as [Hnd Hval Hidle Hne Hquiet Hproc].
    assert (state s ≠ PROCESSING) as Hst.
    { apply orb_true_iff in Hen as [Hen|Hen];
        apply bool_decide_eq_true in Hen; by rewrite Hen. }
    split; cbn; try done; [apply NoDup_nil_2|intros _; by apply Hquiet].
  - by apply wf_handleDownload.
  - by apply (wf_frame s).
  - apply bool_decide_eq_true in Hen.
    assert (state s = PROCESSING) as Hst.
    { destruct (decide (state s = PROCESSING)) as [|Hst]; [done|].
      by destruct (wf_quiet s Hwf Hst). }
    unfold resume. destruct (running s) as [k|] eqn:Hrun; [|done].
    destruct (Task.updatedFiles k !! Task.i k) as [r|]; [|done].
    destruct reply as [result|err].
    + apply wf_loop_next; [|done|done]. by do 2 apply wf_write.
    + apply wf_loop_next; [|done|done]. apply wf_write. by apply (wf_frame s).
  - apply bool_decide_eq_true in Hen.
    assert (state s = PROCESSING) as Hst.
    { destruct (decide (state s = PROCESSING)) as [|Hst]; [done|].
      by destruct (wf_quiet s Hwf Hst). }
    pose proof (wf_processing s Hwf Hst) as Hk.
    destruct Hwf as [Hnd Hval Hidle Hne Hquiet Hproc].
    unfold timeoutFires. destruct (running s) as [k|] eqn:Hrun.
    + destruct Hk as (_ & _ & Htm). by rewrite Htm.
    + rewrite Hk. cbn [pacing]. split; cbn; rewrite ?Hrun; try done.
      intros _. apply Hne. by rewrite Hst.
Qed.

Lemma reachable_wf s : reachable s → wf s.
Proof. apply reachable_invariant; [apply wf_init|intros; by apply wf_fire]. Qed.

Lemma wf_exec evs s : wf s → wf (exec evs s).
Proof. apply exec_invariant. intros; by apply wf_fire. Qed.

(** ** The store and the batch *)

Lemma length_batch s : length (batch s) = length (files s).
Proof. apply length_fmap. Qed.

Lemma batch_lookup s j r : files s !! j = Some r → batch s !! j = Some (deref s r).
Proof. intros H. unfold batch. by rewrite list_lookup_fmap, H. Qed.

Lemma batch_frame s s' : files s' = files s → heap s' = heap s → batch s' = batch s.
Proof. unfold batch, deref. by intros -> ->. Qed.

(** A write through one reference of the batch changes that element of the
    batch and no other. *)
Lemma batch_write s j r g :
  NoDup (files s) → Forall (λ r, r < length (heap s)) (files s) →
  files s !! j = Some r → batch (write r g s) = alter g j (batch s).
Proof.
  intros Hnd Hval Hj. apply list_eq. intros j'.
  assert (r < length (heap s)) as Hr.
  { rewrite Forall_forall in Hval. apply Hval. by eapply list_elem_of_lookup_2. }
  unfold batch at 1. rewrite list_lookup_fmap. cbn [files write with_heap].
  destruct (decide (j = j')) as [<-|Hne].
  - rewrite list_lookup_alter_eq, (batch_lookup s j r), Hj by done. cbn.
    f_equal. unfold deref, write. cbn [heap with_heap].
    by rewrite list_lookup_total_alter_eq.
  - rewrite list_lookup_alter_ne by done.
    unfold batch. rewrite list_lookup_fmap.
    destruct (files s !! j') as [r'|] eqn:Hj'; [|done]. cbn. f_equal.
    unfold deref, write. cbn [heap with_heap].
    apply list_lookup_total_alter_ne. intros ->.
    apply Hne. by eapply NoDup_lookup.
Qed.

Lemma batch_addFiles p ps s :
  wf s → batch (addFiles (p :: ps) s) = batch s ++ (newFile <$> p :: ps).
Proof.
  intros Hwf. unfold batch. rewrite addFiles_files, fmap_app. f_equal.
  - apply list_fmap_ext. intros j r Hj. unfold deref.
    rewrite addFiles_heap. apply lookup_total_app_l.
    pose proof (wf_valid s Hwf) as Hval. rewrite Forall_forall in Hval.
    apply Hval. by eapply list_elem_of_lookup_2.
  - apply list_eq. intros j. rewrite !list_lookup_fmap.
    destruct (decide (j < length (p :: ps))) as [Hlt|Hge].
    + rewrite lookup_seq_lt by done. cbn [fmap option_fmap option_map].
      destruct ((p :: ps) !! j) as [q|] eqn:Hq;
        [|apply lookup_ge_None in Hq; lia].
      cbn [fmap option_fmap option_map]. f_equal.
      unfold deref. rewrite addFiles_heap.
      rewrite lookup_total_app_r by lia.
      replace (length (heap s) + j - length (heap s)) with j by lia.
      apply list_lookup_total_correct. by rewrite list_lookup_fmap, Hq.
    + rewrite lookup_seq_ge by lia.
      by rewrite (proj2 (lookup_ge_None (p :: ps) j)) by lia.
Qed.

(** ** The loop on lists *)

Lemma settle_converting r f :
  settle r (set_status Status.converting f) = settle r f.
Proof. by destruct r. Qed.

Lemma midRun_nil b : midRun b [] = alter (set_status Status.converting) 0 b.
Proof. done. Qed.

Lemma midRun_cons f b r rs :
  midRun (f :: b) (r :: rs) = settle r f :: midRun b rs.
Proof. done. Qed.

Lemma midRun_full b rs :
  length b ≤ length rs → midRun b rs = zip_with settle rs b.
Proof.
  intros Hlen. unfold midRun. rewrite drop_ge by done. apply app_nil_r.
Qed.

Lemma midRun_snoc b rs r :
  length rs < length b →
  alter (set_status Status.converting) (S (length rs))
    (alter (settle r) (length rs) (midRun b rs))
  = midRun b (rs ++ [r]).
Proof.
  revert b. induction rs as [|r0 rs IH]; intros [|f b] Hlen;
    cbn [length] in Hlen; try lia.
  - rewrite midRun_nil. cbn. by rewrite settle_converting.
  - cbn [app]. rewrite !midRun_cons. cbn [length alter list_alter].
    f_equal. apply IH. lia.
Qed.

Lemma length_midRun b rs : length (midRun b rs) = length b.
Proof.
  unfold midRun. rewrite length_app, length_zip_with, length_alter, length_drop.
  lia.
Qed.

Lemma midRun_path b rs : path <$> midRun b rs = path <$> b.
Proof.
  revert b. induction rs as [|r rs IH]; intros [|f b]; try done.
  rewrite midRun_cons, !fmap_cons, IH. by destruct r.
Qed.

(** ** The run, step by step *)

Lemma handleConvert_awaiting s0 t0 :
  wf s0 → state s0 = SELECTION → awaiting s0 t0 [] (handleConvert t0 s0).
Proof.
  intros Hwf Hst. unfold handleConvert.
  assert (files s0 ≠ []) as Hne by (apply (wf_nonempty s0 Hwf); by rewrite Hst).
  destruct (wf_quiet s0 Hwf) as [_ Htm]; [by rewrite Hst|].
  destruct (files s0) as [|r rs] eqn:Hf; [done|]. cbn [length Nat.eqb].
  unfold loop. cbn [Task.i Task.updatedFiles files setProgress setError setState].
  rewrite Hf. cbn [length Nat.ltb Nat.leb lookup list_lookup].
  set (s1 := setProgress 0 (setError None (setState PROCESSING s0))).
  assert (batch (write r (set_status Status.converting) s1)
          = midRun (batch s0) []) as Hb.
  { rewrite batch_write with (j := 0); [done|..].
    - apply (wf_nodup s0 Hwf).
    - apply (wf_valid s0 Hwf).
    - cbn. by rewrite Hf. }
  repeat split; try done.
  - cbn. by rewrite Hf.
  - cbn [calls call with_running]. f_equal. cbn [length].
    assert (batch s0 !! 0 = Some (deref s0 r)) as H0
      by (apply batch_lookup; by rewrite Hf).
    rewrite (take_S_r _ _ _ H0). cbn [take app fmap list_fmap].
    unfold invocation. do 2 f_equal.
    assert (batch (write r (set_status Status.converting) s1) !! 0
            = Some (deref (write r (set_status Status.converting) s1) r)) as H1
      by (apply batch_lookup; cbn; by rewrite Hf).
    rewrite Hb, midRun_nil, list_lookup_alter_eq, H0 in H1.
    by injection H1 as <-.
  - cbn. by rewrite app_nil_r.
Qed.

Lemma alter_beyond {A} (g : A → A) (l : list A) j :
  length l ≤ j → alter g j l = l.
Proof.
  intros Hj. apply list_eq. intros j'. rewrite list_lookup_alter.
  case_decide as Heq; [|done]. subst j'.
  by rewrite (proj2 (lookup_ge_None l j)).
Qed.

Lemma midRun_last b rs r :
  S (length rs) = length b →
  alter (settle r) (length rs) (midRun b rs) = zip_with settle (rs ++ [r]) b.
Proof.
  intros Hlen. rewrite <- midRun_full by (rewrite length_app; cbn; lia).
  rewrite <- midRun_snoc by lia. symmetry. apply alter_beyond.
  rewrite length_alter, length_midRun. lia.
Qed.

Lemma rejections_snoc rs r :
  rejections (rs ++ [r])
  = rejections rs ++ match r with Rejected e => [e] | Resolved _ => [] end.
Proof. unfold rejections. rewrite omap_app. by destruct r. Qed.

(** The body of the loop up to the end of its inner [try]: the object of the
    file in turn is settled, nothing else changes but the console. *)
Lemma settle_step s r j reply :
  NoDup (files s) → Forall (λ r, r < length (heap s)) (files s) →
  files s !! j = Some r →
  let s1 :=
    match reply with
    | Resolved result =>
        write r (set_status Status.done) (write r (set_convertedPath result) s)
    | Rejected e => write r (set_status Status.error) (console_error e s)
    end in
  batch s1 = alter (settle reply) j (batch s)
  ∧ files s1 = files s ∧ length (heap s1) = length (heap s)
  ∧ state s1 = state s ∧ format s1 = format s ∧ error s1 = error s
  ∧ progress s1 = progress s ∧ timeouts s1 = timeouts s
  ∧ running s1 = running s ∧ calls s1 = calls s
  ∧ console s1
    = console s ++ match reply with Rejected e => [e] | Resolved _ => [] end.
Proof.
  intros Hnd Hval Hj. destruct reply as [result|e]; cbn zeta.
  - split.
    + rewrite (batch_write (write r (set_convertedPath result) s) j).
      * rewrite batch_write with (j := j) by done.
        by rewrite list_alter_alter_eq.
      * done.
      * unfold write. cbn [files heap with_heap]. by rewrite length_alter.
      * done.
    + cbn. by rewrite !length_alter, app_nil_r.
  - split.
    + by rewrite batch_write with (j := j).
    + cbn. by rewrite !length_alter.
Qed.

(** One reply of the engine, in the middle of the run and at its end. *)
Lemma resume_step s0 t0 rs s reply now :
  wf s → awaiting s0 t0 rs s → length rs < length (files s0) →
  if S (length rs) <? length (files s0)
  then awaiting s0 t0 (rs ++ [reply]) (resume reply now s)
  else settled s0 t0 (rs ++ [reply]) now (resume reply now s).
Proof.
  intros Hwf (Hst & Hf & Hfmt & Herr & Hpr & Htm & Hrun & Hb & Hc & Hcon) Hlt.
  pose proof (wf_nodup s Hwf) as Hnd. pose proof (wf_valid s Hwf) as Hval.
  unfold resume. rewrite Hrun. cbn [Task.updatedFiles Task.i].
  destruct (lookup_lt_is_Some_2 (files s0) (length rs) Hlt) as [r Hr].
  rewrite Hr. rewrite <- Hf in Hr.
  destruct (settle_step s r (length rs) reply Hnd Hval Hr)
    as (Hb1 & Hf1 & Hh1 & Hst1 & Hfmt1 & Herr1 & Hpr1 & Htm1 & _ & Hc1 & Hcon1).
  cbn zeta in *.
  set (s1 := match reply with
             | Resolved result => _
             | Rejected e => _
             end) in *.
  clearbody s1. unfold loop. cbn [Task.next Task.i Task.updatedFiles Task.format].
  assert (length (batch s0) = length (files s0)) as Hlen by apply length_batch.
  destruct (S (length rs) <? length (files s0)) eqn:Hnext.
  - apply Nat.ltb_lt in Hnext.
    destruct (lookup_lt_is_Some_2 (files s0) (S (length rs)) Hnext) as [r' Hr'].
    rewrite Hr'.
    set (s2 := write r' (set_status Status.converting) s1).
    assert (batch s2 = midRun (batch s0) (rs ++ [reply])) as Hb2.
    { unfold s2. rewrite batch_write with (j := S (length rs)).
      - rewrite Hb1, Hb. apply midRun_snoc. lia.
      - by rewrite Hf1.
      - by rewrite Hf1, Hh1.
      - by rewrite Hf1, Hf. }
    destruct (lookup_lt_is_Some_2 (batch s0) (S (length rs))) as [y Hy]; [lia|].
    assert (path (deref s2 r') = path y) as Hpath.
    { assert (batch s2 !! S (length rs) = Some (deref s2 r')) as H2
        by (apply batch_lookup; cbn; by rewrite Hf1, Hf).
      assert ((path <$> batch s2) !! S (length rs) = Some (path y)) as H3
        by (by rewrite Hb2, midRun_path, list_lookup_fmap, Hy).
      rewrite list_lookup_fmap, H2 in H3. by injection H3. }
    repeat split; cbn; try done; try congruence.
    + unfold Task.next. cbn. by rewrite length_app, Nat.add_1_r.
    + rewrite Hc1, Hc, <- (assoc_L (++)). f_equal.
      rewrite length_app, Nat.add_1_r.
      rewrite (take_S_r _ _ _ Hy), fmap_app. f_equal. cbn.
      unfold invocation. by rewrite Hpath.
    + by rewrite Hcon1, Hcon, rejections_snoc, (assoc_L (++)).
  - apply Nat.ltb_ge in Hnext. unfold afterLoop.
    cbn [Task.next Task.startTime Task.updatedFiles].
    assert (S (length rs) = length (batch s0)) as Hlast by lia.
    set (s2 := with_running None (setFiles (files s0) (setProgress 100 s1))).
    assert (batch s2 = zip_with settle (rs ++ [reply]) (batch s0)) as Hb2.
    { rewrite <- midRun_last by done. rewrite <- Hb, <- Hb1.
      apply batch_frame; cbn; congruence. }
    assert (calls s2 = calls s0 ++ (invocation (format s0) <$> batch s0)) as Hc2.
    { cbn. rewrite Hc1, Hc. by rewrite take_ge by lia. }
    assert (console s2 = console s0 ++ rejections (rs ++ [reply])) as Hcon2.
    { cbn. by rewrite Hcon1, Hcon, rejections_snoc, (assoc_L (++)). }
    unfold settled.
    destruct (now - t0 <? 3000)%Z;
      (repeat split; cbn; try done; try congruence).
    by rewrite Htm1, Htm.
Qed.

(** ** The run as a whole *)

Lemma run_nil t0 s : run t0 [] s = fire s (ClickConvert t0).
Proof. done. Qed.

Lemma run_snoc t0 rs reply now s :
  run t0 (rs ++ [(reply, now)]) s = fire (run t0 rs s) (EngineReply reply now).
Proof.
  unfold run, runEvents. rewrite fmap_app. cbn [fmap list_fmap fst snd].
  by rewrite app_comm_cons, exec_snoc.
Qed.

Lemma fire_reply s reply now :
  running s ≠ None → fire s (EngineReply reply now) = resume reply now s.
Proof.
  intros Hrun. unfold fire. cbn [enabled handle].
  by rewrite bool_decide_eq_true_2.
Qed.

Lemma fire_convert s t0 :
  state s = SELECTION → fire s (ClickConvert t0) = handleConvert t0 s.
Proof.
  intros Hst. unfold fire. cbn [enabled handle].
  by rewrite bool_decide_eq_true_2.
Qed.

(** After the click and [length rs] replies, fewer than there are files, the
    run is suspended at the file of that index. *)
Lemma run_awaiting s0 t0 (rs : list (Reply * Z)) :
  wf s0 → state s0 = SELECTION → length rs < length (files s0) →
  awaiting s0 t0 rs.*1 (run t0 rs s0).
Proof.
  intros Hwf Hst. induction rs as [|[reply now] rs IH] using rev_ind; intros Hlen.
  - rewrite run_nil, fire_convert by done. by apply handleConvert_awaiting.
  - rewrite length_app in Hlen. cbn [length] in Hlen.
    specialize (IH ltac:(lia)).
    assert (running (run t0 rs s0) ≠ None) as Hrun
      by (destruct IH as (_ & _ & _ & _ & _ & _ & -> & _); done).
    rewrite run_snoc, fire_reply, fmap_app by done.
    pose proof (resume_step s0 t0 rs.*1 (run t0 rs s0) reply now) as Hstep.
    rewrite length_fmap in Hstep.
    rewrite (proj2 (Nat.ltb_lt (S (length rs)) (length (files s0)))) in Hstep
      by lia.
    apply Hstep; [by apply wf_exec|done|lia].
Qed.

(** After the click and one reply per file the run has left its loop. *)
Lemma run_settled s0 t0 (rs : list (Reply * Z)) reply now :
  wf s0 → state s0 = SELECTION → S (length rs) = length (files s0) →
  settled s0 t0 (rs.*1 ++ [reply]) now (run t0 (rs ++ [(reply, now)]) s0).
Proof.
  intros Hwf Hst Hlen.
  pose proof (run_awaiting s0 t0 rs Hwf Hst ltac:(lia)) as Haw.
  assert (running (run t0 rs s0) ≠ None) as Hrun
    by (destruct Haw as (_ & _ & _ & _ & _ & _ & -> & _); done).
  rewrite run_snoc, fire_reply by done.
  pose proof (resume_step s0 t0 rs.*1 (run t0 rs s0) reply now) as Hstep.
  rewrite length_fmap in Hstep.
  rewrite (proj2 (Nat.ltb_ge (S (length rs)) (length (files s0)))) in Hstep
    by lia.
  apply Hstep; [by apply wf_exec|done|lia].
Qed.

Lemma fire_timeout_idle s : timeouts s = [] → fire s TimeoutFires = s.
Proof. intros Htm. unfold fire. cbn [enabled]. by rewrite Htm. Qed.

(** A run of one reply per file, brought to its end. *)
Lemma finish_spec s0 t0 (rs : list (Reply * Z)) :
  wf s0 → state s0 = SELECTION → length rs = length (files s0) →
  let s' := finish t0 rs s0 in
  state s' = FINISHED ∧ timeouts s' = [] ∧ running s' = None
  ∧ files s' = files s0 ∧ format s' = format s0
  ∧ batch s' = zip_with settle rs.*1 (batch s0)
  ∧ calls s' = calls s0 ++ (invocation (format s0) <$> batch s0).
Proof.
  intros Hwf Hst Hlen.
  assert (files s0 ≠ []) as Hne by (apply (wf_nonempty s0 Hwf); by rewrite Hst).
  destruct rs as [|[reply now] rs _] using rev_ind.
  { destruct (files s0); done. }
  rewrite length_app, Nat.add_1_r in Hlen.
  pose proof (run_settled s0 t0 rs reply now Hwf Hst Hlen)
    as (Hf & Hfmt & _ & _ & Hrun & Hb & Hc & _ & Hend).
  unfold finish. rewrite fmap_app. cbn [fmap list_fmap fst].
  set (s1 := run t0 (rs ++ [(reply, now)]) s0) in *. clearbody s1. cbn zeta.
  destruct (now - t0 <? 3000)%Z; destruct Hend as [Hst1 Htm1].
  - rewrite fire_timeout_idle by done. done.
  - unfold fire. cbn [enabled handle]. rewrite Htm1.
    rewrite bool_decide_eq_true_2 by done.
    unfold timeoutFires. rewrite Htm1. cbn [pacing].
    repeat split; done.
Qed.

Lemma status_settle r f : status (settle r f) = Some (outcome r).
Proof. by destruct r. Qed.

Lemma statuses_settled (rs : list Reply) (b : list FileInfo) :
  length rs = length b →
  status <$> zip_with settle rs b = (λ r, Some (outcome r)) <$> rs.
Proof.
  revert b. induction rs as [|r rs IH]; intros [|f b] Hlen; try done.
  cbn [zip_with]. rewrite !fmap_cons, status_settle. f_equal. apply IH.
  by injection Hlen.
Qed.

Lemma done_count (l : list FileInfo) :
  length (filter (λ f, status f = Some Status.done) l)
  = length (filter (λ st, st = Some Status.done) (status <$> l)).
Proof.
  induction l as [|f l IH]; [done|].
  rewrite fmap_cons.
  destruct (decide (status f = Some Status.done)) as [Hd|Hd].
  - rewrite !filter_cons_True by done. cbn [length]. by rewrite IH.
  - by rewrite !filter_cons_False by done.
Qed.

Lemma resolved_count (rs : list Reply) :
  length (filter (λ st, st = Some Status.done) ((λ r, Some (outcome r)) <$> rs))
  = length (filter (λ r, isResolved r) rs).
Proof.
  induction rs as [|r rs IH]; [done|].
  rewrite fmap_cons. destruct r as [result|e].
  - rewrite !filter_cons_True by done. cbn [length]. by rewrite IH.
  - rewrite !filter_cons_False; [done|by intros []|done].
Qed.

(** C1.  After a conversion run over a batch, which is never empty where the
    run can be started, every file of the batch has status done or error,
    and the number the FINISHED view announces as ready to save is the number
    of files with status done, one for each file the engine converted. *)
Theorem run_settles_every_file :
  ∀ s0 t0 (replies : list (Reply * Z)),
    reachable s0 → state s0 = SELECTION →
    length replies = length (files s0) →
    let s' := finish t0 replies s0 in
    batch s0 ≠ [] ∧ state s' = FINISHED
    ∧ Forall (λ f, status f = Some Status.done ∨ status f = Some Status.error)
             (batch s')
    ∧ readyToSave s'
      = length (filter (λ st, st = Some Status.done) (statuses s'))
    ∧ readyToSave s' = length (filter (λ r, isResolved r) replies.*1).
Proof.
  intros s0 t0 rs Hreach Hst Hlen s'. apply reachable_wf in Hreach as Hwf.
  destruct (finish_spec s0 t0 rs Hwf Hst Hlen) as (Hst' & _ & _ & _ & _ & Hb & _).
  fold s' in Hst', Hb.
  assert (statuses s' = (λ r, Some (outcome r)) <$> rs.*1) as Hsts.
  { unfold statuses. rewrite Hb. apply statuses_settled.
    by rewrite length_fmap, length_batch. }
  split; [|split; [done|split; [|split]]].
  - intros Hnil. apply (wf_nonempty s0 Hwf); [by rewrite Hst|].
    apply (f_equal length) in Hnil. rewrite length_batch in Hnil.
    by destruct (files s0).
  - apply Forall_forall. intros f Hf.
    assert (status f ∈ statuses s') as Hin by (by apply list_elem_of_fmap_2).
    rewrite Hsts in Hin. apply list_elem_of_fmap in Hin as (r & -> & _).
    destruct r; [by left|by right].
  - apply done_count.
  - unfold readyToSave. rewrite done_count. fold (statuses s').
    rewrite Hsts. apply resolved_count.
Qed.

Lemma run_settles_every_file_witness :
  let s0 := exec [DragDrop ["/in/a.mov"; "/in/b.png"]] init in
  let s' := finish 0 [(Resolved "/tmp/a.mp4", 1200%Z);
                      (Rejected "unsupported", 4100%Z)] s0 in
  batch s0 ≠ [] ∧ state s' = FINISHED
  ∧ Forall (λ f, status f = Some Status.done ∨ status f = Some Status.error)
           (batch s')
  ∧ readyToSave s'
    = length (filter (λ st, st = Some Status.done) (statuses s'))
  ∧ readyToSave s' = 1.
Proof.
  apply (run_settles_every_file
           (exec [DragDrop ["/in/a.mov"; "/in/b.png"]] init) 0
           [(Resolved "/tmp/a.mp4", 1200%Z); (Rejected "unsupported", 4100%Z)]).
  - by exists [DragDrop ["/in/a.mov"; "/in/b.png"]].
  - reflexivity.
  - reflexivity.
Defined.

(** C2.  A rejection of the engine is caught at the file it was for: that
    file gets status error and is otherwise left as it was, and every file
    ends as its own reply says, whatever happened to the others.  Every file
    of the batch is sent to the engine, in batch order, and the file after
    the n-th is only sent once n replies are in. *)
Theorem failure_is_contained :
  ∀ s0 t0 (replies : list (Reply * Z)),
    reachable s0 → state s0 = SELECTION →
    length replies = length (files s0) →
    let s' := finish t0 replies s0 in
    (∀ j f e,
        batch s0 !! j = Some f → replies.*1 !! j = Some (Rejected e) →
        batch s' !! j = Some (set_status Status.error f))
    ∧ (∀ j f r,
          batch s0 !! j = Some f → replies.*1 !! j = Some r →
          batch s' !! j = Some (settle r f))
    ∧ statuses s' = (λ r, Some (outcome r)) <$> replies.*1
    ∧ calls s' = calls s0 ++ (invocation (format s0) <$> batch s0)
    ∧ (∀ n, n < length replies →
            calls (run t0 (take n replies) s0)
            = calls s0
              ++ (invocation (format s0) <$> take (S n) (batch s0))).
Proof.
  intros s0 t0 rs Hreach Hst Hlen s'. apply reachable_wf in Hreach as Hwf.
  destruct (finish_spec s0 t0 rs Hwf Hst Hlen) as (_ & _ & _ & _ & _ & Hb & Hc).
  fold s' in Hb, Hc.
  assert (∀ j f r,
            batch s0 !! j = Some f → rs.*1 !! j = Some r →
            batch s' !! j = Some (settle r f)) as Heach.
  { intros j f r Hf Hr. by rewrite Hb, lookup_zip_with, Hr, Hf. }
  split; [|split; [done|split; [|split; [done|]]]].
  - intros j f e Hf Hr. by rewrite (Heach j f (Rejected e)).
  - unfold statuses. rewrite Hb. apply statuses_settled.
    by rewrite length_fmap, length_batch.
  - intros n Hn.
    assert (length (take n rs) = n) as Htake by (rewrite length_take; lia).
    destruct (run_awaiting s0 t0 (take n rs) Hwf Hst)
      as (_ & _ & _ & _ & _ & _ & _ & _ & Hcalls & _); [lia|].
    by rewrite length_fmap, Htake in Hcalls.
Qed.

Lemma failure_is_contained_witness :
  let s0 := exec [DragDrop ["/in/A.mov"; "/in/B.mov"; "/in/C.mov"]] init in
  let replies := [(Rejected "no codec", 10%Z); (Resolved "/tmp/B.mp4", 20%Z);
                  (Resolved "/tmp/C.mp4", 30%Z)] in
  statuses (finish 0 replies s0)
  = [Some Status.error; Some Status.done; Some Status.done]
  ∧ calls (finish 0 replies s0)
    = [convert_file "/in/A.mov" "MP4"; convert_file "/in/B.mov" "MP4";
       convert_file "/in/C.mov" "MP4"].
Proof.
  pose proof (failure_is_contained
                (exec [DragDrop ["/in/A.mov"; "/in/B.mov"; "/in/C.mov"]] init) 0
                [(Rejected "no codec", 10%Z); (Resolved "/tmp/B.mp4", 20%Z);
                 (Resolved "/tmp/C.mp4", 30%Z)]) as H.
  destruct H as (_ & _ & Hstatuses & Hcalls & _).
  - by exists [DragDrop ["/in/A.mov"; "/in/B.mov"; "/in/C.mov"]].
  - reflexivity.
  - reflexivity.
  - split; [exact Hstatuses|exact Hcalls].
Defined.

(** ** Pacing *)

Lemma trail_snoc evs e s :
  trail (evs ++ [e]) s = trail evs s ++ [exec (evs ++ [e]) s].
Proof.
  revert s. induction evs as [|e' evs IH]; intros s; [done|].
  cbn [app trail]. by rewrite IH.
Qed.

Lemma runEvents_snoc t0 rs reply now :
  runEvents t0 (rs ++ [(reply, now)])
  = runEvents t0 rs ++ [EngineReply reply now].
Proof. unfold runEvents. by rewrite fmap_app. Qed.

(** Until the last reply is in, a run stays in PROCESSING. *)
Lemma run_states s0 t0 (rs : list (Reply * Z)) :
  wf s0 → state s0 = SELECTION → length rs < length (files s0) →
  state <$> trail (runEvents t0 rs) s0
  = SELECTION :: replicate (S (length rs)) PROCESSING.
Proof.
  intros Hwf Hst. induction rs as [|[reply now] rs IH] using rev_ind; intros Hlen.
  - destruct (run_awaiting s0 t0 [] Hwf Hst Hlen) as (Hst1 & _).
    rewrite run_nil in Hst1. cbn. by rewrite Hst, Hst1.
  - rewrite length_app in Hlen. cbn [length] in Hlen.
    rewrite runEvents_snoc, trail_snoc, fmap_app, IH by lia.
    rewrite <- runEvents_snoc. fold (run t0 (rs ++ [(reply, now)]) s0).
    destruct (run_awaiting s0 t0 (rs ++ [(reply, now)]) Hwf Hst) as (Hst1 & _).
    { rewrite length_app. cbn [length]. lia. }
    rewrite length_app, Nat.add_1_r. cbn [fmap list_fmap]. rewrite Hst1.
    by rewrite (replicate_S_end (S (length rs))).
Qed.

Lemma arrivals_cons st a b l :
  arrivals st (a :: b :: l)
  = (if bool_decide (a ≠ st ∧ b = st) then 1 else 0) + arrivals st (b :: l).
Proof. done. Qed.

Lemma arrivals_after_processing n st :
  st = FINISHED ∨ st = PROCESSING →
  arrivals FINISHED (replicate (S n) PROCESSING ++ [st; FINISHED]) = 1.
Proof.
  intros Hst. induction n as [|n IH].
  - by destruct Hst as [-> | ->].
  - rewrite !replicate_S. rewrite replicate_S in IH. cbn [app] in *.
    by rewrite arrivals_cons, IH.
Qed.

(** C8.  A run whose loop ends less than 3000 ms after it started is in
    FINISHED at once, with no timeout pending; a run that took longer stays
    in PROCESSING with one timeout of 500 ms pending, and is in FINISHED when
    that fires.  Either way the session enters FINISHED exactly once. *)
Theorem finished_once_with_pacing :
  ∀ s0 t0 (rs : list (Reply * Z)) reply tEnd,
    reachable s0 → state s0 = SELECTION →
    S (length rs) = length (files s0) →
    let replies := rs ++ [(reply, tEnd)] in
    let s1 := run t0 replies s0 in
    ((tEnd - t0 < 3000)%Z → state s1 = FINISHED ∧ timeouts s1 = [])
    ∧ ((3000 ≤ tEnd - t0)%Z →
       state s1 = PROCESSING
       ∧ timeouts s1 = [{| delay := 500; callback := SetState FINISHED |}]
       ∧ state (fire s1 TimeoutFires) = FINISHED
       ∧ timeouts (fire s1 TimeoutFires) = [])
    ∧ arrivals FINISHED
        (state <$> trail (runEvents t0 replies ++ [TimeoutFires]) s0) = 1.
Proof.
  intros s0 t0 rs reply tEnd Hreach Hst Hlen replies s1.
  apply reachable_wf in Hreach as Hwf.
  pose proof (run_settled s0 t0 rs reply tEnd Hwf Hst Hlen)
    as (_ & _ & _ & _ & _ & _ & _ & _ & Hend).
  fold replies in Hend. fold s1 in Hend.
  assert (length replies = length (files s0)) as Hlen'
    by (unfold replies; rewrite length_app; cbn [length]; lia).
  destruct (finish_spec s0 t0 replies Hwf Hst Hlen') as (Hfin & Htm & _).
  unfold finish in Hfin, Htm. fold s1 in Hfin, Htm.
  split; [|split].
  - intros Hfast. apply Z.ltb_lt in Hfast. by rewrite Hfast in Hend.
  - intros Hslow. apply Z.ltb_ge in Hslow. rewrite Hslow in Hend.
    destruct Hend as [? ?]. done.
  - rewrite trail_snoc, fmap_app. unfold replies at 1.
    rewrite runEvents_snoc, trail_snoc, fmap_app.
    rewrite run_states by (done || lia).
    rewrite <- runEvents_snoc. fold replies. fold (run t0 replies s0). fold s1.
    rewrite exec_snoc. fold (run t0 replies s0). fold s1.
    cbn [fmap list_fmap]. rewrite Hfin, <- (assoc_L (++)).
    change (arrivals FINISHED
              (SELECTION :: replicate (S (length rs)) PROCESSING
               ++ [state s1; FINISHED])
            = 1).
    rewrite replicate_S. cbn [app]. rewrite arrivals_cons.
    rewrite <- (arrivals_after_processing (length rs) (state s1)).
    + by rewrite replicate_S.
    + destruct (tEnd - t0 <? 3000)%Z; destruct Hend as [-> _]; auto.
Qed.

Lemma finished_once_with_pacing_witness :
  let s0 := exec [DragDrop ["/in/a.mov"]] init in
  let fast := run 1000 [(Resolved "/tmp/a.mp4", 3999%Z)] s0 in
  let slow := run 1000 [(Resolved "/tmp/a.mp4", 4000%Z)] s0 in
  (state fast = FINISHED ∧ timeouts fast = [])
  ∧ (state slow = PROCESSING
     ∧ timeouts slow = [{| delay := 500; callback := SetState FINISHED |}]
     ∧ state (fire slow TimeoutFires) = FINISHED
     ∧ timeouts (fire slow TimeoutFires) = [])
  ∧ arrivals FINISHED
      (state <$> trail (runEvents 1000 [(Resolved "/tmp/a.mp4", 4000%Z)]
                          ++ [TimeoutFires]) s0) = 1.
Proof.
  intros s0 fast slow.
  assert (reachable s0) as Hreach by (by exists [DragDrop ["/in/a.mov"]]).
  destruct (finished_once_with_pacing s0 1000 [] (Resolved "/tmp/a.mp4") 3999
              Hreach eq_refl eq_refl) as (Hfast & _ & _).
  destruct (finished_once_with_pacing s0 1000 [] (Resolved "/tmp/a.mp4") 4000
              Hreach eq_refl eq_refl) as (_ & Hslow & Honce).
  split; [apply Hfast; lia|]. split; [apply Hslow; lia|exact Honce].
Defined.

(** ** Drops during a run *)

(** C6.  Paths dropped on the window while the session is in PROCESSING
    leave the session as it is: the batch, the objects of its files and their
    statuses, the format and the state, which stays PROCESSING. *)
Theorem drop_while_processing_is_ignored :
  ∀ s paths,
    state s = PROCESSING →
    let s' := fire s (DragDrop paths) in
    s' = s ∧ batch s' = batch s ∧ statuses s' = statuses s
    ∧ format s' = format s ∧ state s' = PROCESSING.
Proof.
  intros s paths Hst s'.
  assert (s' = s) as ->; [|done].
  unfold s', fire. cbn [enabled handle]. unfold onDragDrop.
  by rewrite decide_True.
Qed.

Lemma drop_while_processing_is_ignored_witness :
  let s := exec [DragDrop ["/in/a.mov"; "/in/b.mov"]; ClickConvert 0;
                 EngineReply (Resolved "/tmp/a.mp4") 900] init in
  let s' := fire s (DragDrop ["/in/c.png"]) in
  state s = PROCESSING
  ∧ s' = s ∧ batch s' = batch s ∧ statuses s' = statuses s
  ∧ format s' = format s ∧ state s' = PROCESSING.
Proof.
  split; [reflexivity|].
  apply (drop_while_processing_is_ignored
           (exec [DragDrop ["/in/a.mov"; "/in/b.mov"]; ClickConvert 0;
                  EngineReply (Resolved "/tmp/a.mp4") 900] init)
           ["/in/c.png"]).
  reflexivity.
Defined.

(** ** Export *)

(** ** Result path and status *)

Lemma write_write r g1 g2 s :
  write r g2 (write r g1 s) = write r (g2 ∘ g1) s.
Proof. unfold write, with_heap. cbn. by rewrite list_alter_alter_eq. Qed.

Lemma sound_write r g s :
  (∀ f, sound f → sound (g f)) →
  Forall sound (heap s) → Forall sound (heap (write r g s)).
Proof.
  intros Hg Hs. cbn [write with_heap heap]. apply Forall_alter; [done|].
  intros f _. apply Hg.
Qed.

Lemma sound_converting f : sound f → sound (set_status Status.converting f).
Proof. by intros _. Qed.

Lemma sound_settle reply f : sound f → sound (settle reply f).
Proof. intros _. destruct reply; split; cbn; by eauto. Qed.

Lemma sound_newFile p : sound (newFile p).
Proof. done. Qed.

Lemma sound_addFiles paths s :
  Forall sound (heap s) → Forall sound (heap (addFiles paths s)).
Proof.
  intros Hs. destruct paths as [|p ps]; [done|].
  rewrite addFiles_heap. apply Forall_app. split; [done|].
  apply Forall_fmap, Forall_forall. intros q _. apply sound_newFile.
Qed.

Lemma sound_loop now k s :
  Forall sound (heap s) → Forall sound (heap (loop now k s)).
Proof.
  intros Hs. unfold loop. case_match.
  - case_match; [|done]. cbn [heap with_running call].
    apply sound_write; [apply sound_converting|done].
  - unfold afterLoop. by case_match.
Qed.

Lemma sound_fire s e : Forall sound (heap s) → Forall sound (heap (fire s e)).
Proof.
  intros Hs. unfold fire. destruct (enabled e s); [|done].
  destruct e as [selected|paths|fmt|now| |answer copies| |reply now| ];
    cbn [handle]; try done.
  - unfold openFilePicker. destruct selected as [paths|p| |err]; try done.
    + by apply sound_addFiles.
    + case_match; [|done]. by apply sound_addFiles.
  - unfold onDragDrop. case_decide; [done|]. by apply sound_addFiles.
  - unfold handleConvert. case_match; [done|]. by apply sound_loop.
  - destruct (handleDownload_frame answer copies s)
      as (_ & _ & _ & _ & -> & _). done.
  - unfold resume. destruct (running s) as [k|]; [|done].
    destruct (Task.updatedFiles k !! Task.i k) as [r|]; [|done].
    apply sound_loop. destruct reply as [result|err].
    + rewrite write_write. apply sound_write; [|done].
      intros f. apply (sound_settle (Resolved result)).
    + apply sound_write; [|done]. intros f. apply (sound_settle (Rejected err)).
  - unfold timeoutFires. destruct (timeouts s) as [|[d [target]] rest]; done.
Qed.

Lemma batch_in_heap (P : FileInfo → Prop) s :
  wf s → Forall P (heap s) → Forall P (batch s).
Proof.
  intros Hwf HP. unfold batch. apply Forall_fmap, Forall_forall.
  intros r Hr. cbn. rewrite Forall_forall in HP. apply HP.
  unfold deref. apply list_elem_of_lookup_total_2.
  pose proof (wf_valid s Hwf) as Hval. rewrite Forall_forall in Hval.
  by apply Hval.
Qed.

Lemma reachable_sound s : reachable s → Forall sound (batch s).
Proof.
  intros Hreach. apply batch_in_heap; [by apply reachable_wf|].
  revert s Hreach. apply reachable_invariant; [by constructor|].
  intros s e. apply sound_fire.
Qed.

Lemma firstTime_frame s s' :
  state s' = state s → running s' = running s → batch s' = batch s →
  firstTime s → firstTime s'.
Proof.
  intros Hst Hrun Hb Hs j f. unfold expected. rewrite Hst, Hrun, Hb. apply Hs.
Qed.

Lemma untouched_newFile p : untouched (newFile p).
Proof. done. Qed.

Lemma firstTime_addFiles paths s :
  wf s → state s = IDLE ∨ state s = SELECTION →
  firstTime s → firstTime (addFiles paths s).
Proof.
  intros Hwf Hst Hs. destruct paths as [|p ps]; [done|].
  intros j f. unfold expected. rewrite addFiles_state, batch_addFiles by done.
  intros Hj. apply lookup_app_Some in Hj as [Hj|[_ Hj]].
  - specialize (Hs j f Hj). unfold expected in Hs.
    by destruct Hst as [Hst|Hst]; rewrite Hst in Hs.
  - apply list_lookup_fmap_Some in Hj as (q & -> & _). apply untouched_newFile.
Qed.

Lemma firstTime_handleConvert now s :
  wf s → state s = SELECTION → firstTime s → firstTime (handleConvert now s).
Proof.
  intros Hwf Hst Hs.
  destruct (handleConvert_awaiting s now Hwf Hst)
    as (Hst' & _ & _ & _ & _ & _ & Hrun & Hb & _).
  intros j f. unfold expected. rewrite Hst', Hrun, Hb, midRun_nil.
  cbn [Task.i length]. rewrite list_lookup_alter. intros Hj.
  assert (∀ g, batch s !! j = Some g → untouched g) as Hun.
  { intros g Hg. specialize (Hs j g Hg). unfold expected in Hs.
    by rewrite Hst in Hs. }
  destruct j as [|j].
  - rewrite decide_True in Hj by done.
    destruct (batch s !! 0) as [g|] eqn:Hg; [|done]. injection Hj as <-.
    destruct (Hun g eq_refl) as [_ Hcp]. by rewrite decide_False, decide_True by lia.
  - rewrite decide_False in Hj by done.
    rewrite !decide_False by lia. by apply Hun.
Qed.

Lemma settledFile_settle reply f : inTurn f → settledFile (settle reply f).
Proof.
  intros [_ Hcp]. destruct reply as [result|err]; [left|right]; cbn; eauto.
Qed.

Lemma inTurn_converting f :
  untouched f → inTurn (set_status Status.converting f).
Proof. by intros [_ Hcp]. Qed.

Lemma firstTime_resume reply now s :
  wf s → running s ≠ None → firstTime s → firstTime (resume reply now s).
Proof.
  intros Hwf Hrun Hs.
  assert (state s = PROCESSING) as Hst.
  { destruct (decide (state s = PROCESSING)) as [|Hst]; [done|].
    by destruct (wf_quiet s Hwf Hst). }
  pose proof (wf_processing s Hwf Hst) as Hk.
  pose proof (wf_nodup s Hwf) as Hnd. pose proof (wf_valid s Hwf) as Hval.
  unfold resume. destruct (running s) as [k|] eqn:Hrun'; [|done].
  destruct Hk as (Hfiles & Hi & Htm). rewrite Hfiles.
  destruct (lookup_lt_is_Some_2 (files s) (Task.i k) Hi) as [r Hr]. rewrite Hr.
  destruct (settle_step s r (Task.i k) reply Hnd Hval Hr)
    as (Hb1 & Hf1 & Hh1 & Hst1 & _). cbn zeta in *.
  set (s1 := match reply with
             | Resolved result => _
             | Rejected e => _
             end) in *.
  clearbody s1.
  assert (∀ j f, batch s !! j = Some f →
            if decide (j < Task.i k) then settledFile f
            else if decide (j = Task.i k) then inTurn f
            else untouched f) as Hs'.
  { intros j f Hj. specialize (Hs j f Hj). unfold expected in Hs.
    by rewrite Hst, Hrun' in Hs. }
  unfold loop. cbn [Task.next Task.i Task.updatedFiles Task.format].
  rewrite Hfiles.
  destruct (S (Task.i k) <? length (files s)) eqn:Hnext.
  - apply Nat.ltb_lt in Hnext.
    destruct (lookup_lt_is_Some_2 (files s) (S (Task.i k)) Hnext) as [r' Hr'].
    rewrite Hr'.
    intros j f. unfold expected. cbn [state running with_running call write
      with_heap Task.next Task.i]. rewrite Hst1, Hst.
    rewrite (batch_frame (write r' (set_status Status.converting) s1))
      by done.
    rewrite batch_write with (j := S (Task.i k));
      [|by rewrite Hf1|by rewrite Hf1, Hh1|by rewrite Hf1].
    rewrite Hb1, !list_lookup_alter. intros Hj.
    destruct (decide (S (Task.i k) = j)) as [<-|Hne1].
    + rewrite decide_False in Hj by lia.
      destruct (batch s !! S (Task.i k)) as [g|] eqn:Hg; [|done].
      injection Hj as <-. specialize (Hs' _ _ Hg).
      rewrite !decide_False in Hs' by lia.
      rewrite decide_False, decide_True by lia. by apply inTurn_converting.
    + destruct (decide (Task.i k = j)) as [<-|Hne2].
      * destruct (batch s !! Task.i k) as [g|] eqn:Hg; [|done].
        injection Hj as <-. specialize (Hs' _ _ Hg).
        rewrite decide_False, decide_True in Hs' by lia.
        rewrite decide_True by lia. by apply settledFile_settle.
      * specialize (Hs' _ _ Hj).
        destruct (decide (j < Task.i k)).
        -- by rewrite decide_True by lia.
        -- rewrite decide_False in Hs' by lia.
           by rewrite !decide_False by lia.
  - apply Nat.ltb_ge in Hnext. unfold afterLoop.
    assert (∀ j f,
              alter (settle reply) (Task.i k) (batch s) !! j = Some f →
              settledFile f) as Hall.
    { intros j f. rewrite list_lookup_alter. intros Hj.
      destruct (decide (Task.i k = j)) as [<-|Hne].
      - destruct (batch s !! Task.i k) as [g|] eqn:Hg; [|done].
        injection Hj as <-. specialize (Hs' _ _ Hg).
        rewrite decide_False, decide_True in Hs' by lia.
        by apply settledFile_settle.
      - specialize (Hs' _ _ Hj).
        apply lookup_lt_Some in Hj. rewrite length_batch in Hj.
        by rewrite decide_True in Hs' by lia. }
    rewrite <- Hb1 in Hall.
    destruct (_ <? 3000)%Z; intros j f; unfold expected;
      cbn [state running setState with_timeouts with_running setFiles
           setProgress]; rewrite ?Hst1, ?Hst; intros Hj; apply (Hall j);
      rewrite <- Hj; f_equal; symmetry; apply batch_frame; cbn; congruence.
Qed.

Lemma firstTime_fire s e :
  wf s → firstTime s → addsToFinished s e = false → firstTime (fire s e).
Proof.
  intros Hwf Hs Hok. unfold fire. destruct (enabled e s) eqn:Hen; [|done].
  destruct e as [selected|paths|fmt|now| |answer copies| |reply now| ];
    cbn [enabled handle addsToFinished] in *.
  - apply bool_decide_eq_true in Hen.
    assert (wf (call open_files s)) as Hwf' by by apply (wf_frame s).
    assert (firstTime (call open_files s)) as Hs' by by apply (firstTime_frame s).
    unfold openFilePicker. destruct selected as [paths|p| |err].
    + apply firstTime_addFiles; [done|by left|done].
    + case_match; [|done]. apply firstTime_addFiles; [done|by left|done].
    + done.
    + by apply (firstTime_frame s).
  - unfold onDragDrop.
    destruct (decide (state s = PROCESSING)) as [Hst|Hst]; [done|].
    destruct paths as [|p ps]; [done|].
    apply bool_decide_eq_false in Hok.
    apply firstTime_addFiles; [done| |done]. by destruct (state s); auto.
  - by apply (firstTime_frame s).
  - apply bool_decide_eq_true in Hen. by apply firstTime_handleConvert.
  - intros j f. unfold batch. cbn [reset files setProgress setError setFiles].
    by rewrite fmap_nil, lookup_nil.
  - destruct (handleDownload_frame answer copies s)
      as (Hst & Hf & _ & _ & Hh & Hr & _).
    apply (firstTime_frame s); try done. by apply batch_frame.
  - by apply (firstTime_frame s).
  - apply bool_decide_eq_true in Hen. by apply firstTime_resume.
  - apply bool_decide_eq_true in Hen.
    assert (state s = PROCESSING) as Hst.
    { destruct (decide (state s = PROCESSING)) as [|Hst]; [done|].
      by destruct (wf_quiet s Hwf Hst). }
    pose proof (wf_processing s Hwf Hst) as Hk.
    unfold timeoutFires. destruct (running s) as [k|] eqn:Hrun.
    + destruct Hk as (_ & _ & Htm). by rewrite Htm.
    + rewrite Hk. cbn [pacing]. intros j f Hj. specialize (Hs j f Hj).
      unfold expected in *. rewrite Hst, Hrun in Hs. done.
Qed.

Lemma firstTime_exec evs s :
  wf s → firstTime s → neverAddsToFinished evs s = true →
  firstTime (exec evs s).
Proof.
  revert s. induction evs as [|e evs IH]; intros s Hwf Hs Hok; [done|].
  cbn [neverAddsToFinished] in Hok. apply andb_true_iff in Hok as [He Hok].
  apply negb_true_iff in He. rewrite exec_cons.
  apply IH; [by apply wf_fire|by apply firstTime_fire|done].
Qed.

Lemma expected_consistent s j f : expected s j f → consistent f.
Proof.
  unfold expected, consistent, settledFile, inTurn, untouched.
  intros H. destruct (state s), (running s); repeat case_decide;
    destruct H as [[-> ?]|[-> ->]] || destruct H as [-> ->];
    split; (done || by intros []).
Qed.

Lemma firstTime_init : firstTime init.
Proof. by intros j f. Qed.

(** C3 (as amended).  At every point of a session a file with status done
    has a result path and a file with status pending has none.  As long as no
    files are dropped on a batch that has been converted, the result path is
    there exactly when the status is done. *)
Theorem result_path_and_status :
  (∀ s, reachable s →
        Forall (λ f, (status f = Some Status.done → is_Some (convertedPath f))
                     ∧ (status f = Some Status.pending →
                        convertedPath f = None))
               (batch s))
  ∧ (∀ evs, neverAddsToFinished evs init = true →
            Forall (λ f, is_Some (convertedPath f)
                         ↔ status f = Some Status.done)
                   (batch (exec evs init))).
Proof.
  split.
  - intros s Hreach. apply (reachable_sound s Hreach).
  - intros evs Hok.
    pose proof (firstTime_exec evs init wf_init firstTime_init Hok) as Hs.
    apply Forall_lookup. intros j f Hj.
    apply (expected_consistent (exec evs init) j f). by apply Hs.
Qed.

Lemma result_path_and_status_witness :
  let evs := [DragDrop ["/in/a.mov"; "/in/b.mov"]; ClickConvert 0;
              EngineReply (Rejected "no codec") 400;
              EngineReply (Resolved "/tmp/b.mp4") 900] in
  Forall (λ f, (status f = Some Status.done → is_Some (convertedPath f))
               ∧ (status f = Some Status.pending → convertedPath f = None))
         (batch (exec evs init))
  ∧ Forall (λ f, is_Some (convertedPath f) ↔ status f = Some Status.done)
           (batch (exec evs init)).
Proof.
  intros evs. split.
  - apply (proj1 result_path_and_status (exec evs init)). by exists evs.
  - apply (proj2 result_path_and_status evs). reflexivity.
Defined.

(** C3 (as stated) fails: files dropped on a converted batch put its files
    through a second run, and a file whose second conversion is rejected
    keeps the result path of the first with status error. *)
Lemma stale_result_path_counterexample :
  let s := exec [DragDrop ["/in/a.mov"]; ClickConvert 0;
                 EngineReply (Resolved "/tmp/a.mp4") 800;
                 DragDrop ["/in/b.mov"]; ClickConvert 5000;
                 EngineReply (Rejected "disk full") 5600;
                 EngineReply (Resolved "/tmp/b.mp4") 6300] init in
  reachable s ∧ state s = FINISHED
  ∧ (status <$> batch s !! 0) = Some (Some Status.error)
  ∧ (convertedPath <$> batch s !! 0) = Some (Some "/tmp/a.mp4")
  ∧ ¬ Forall (λ f, is_Some (convertedPath f) ↔ status f = Some Status.done)
             (batch s).
Proof.
  intros s. split; [eexists; reflexivity|].
  do 3 (split; [vm_compute; reflexivity|]).
  intros Hall. apply (Forall_lookup_1 _ _ 0 (deref s 0)) in Hall as [Hcp _];
    [|vm_compute; reflexivity].
  assert (status (deref s 0) = Some Status.done) as Hdone
    by (apply Hcp; vm_compute; by eexists).
  vm_compute in Hdone. discriminate.
Qed.

(** ** Old and new files *)

Lemma fire_drop s paths :
  state s ≠ PROCESSING → fire s (DragDrop paths) = addFiles paths s.
Proof.
  intros Hst. unfold fire. cbn [enabled handle]. unfold onDragDrop.
  by rewrite decide_False.
Qed.

Lemma fire_pick s selected :
  state s = IDLE → fire s (ClickPick selected) = openFilePicker selected s.
Proof.
  intros Hst. unfold fire. cbn [enabled handle].
  by rewrite bool_decide_eq_true_2.
Qed.

Lemma files_resume reply now s :
  wf s → files (resume reply now s) = files s.
Proof.
  intros Hwf. unfold resume. destruct (running s) as [k|] eqn:Hrun; [|done].
  assert (state s = PROCESSING) as Hst.
  { destruct (decide (state s = PROCESSING)) as [|Hst]; [done|].
    destruct (wf_quiet s Hwf Hst); congruence. }
  pose proof (wf_processing s Hwf Hst) as Hk. rewrite Hrun in Hk.
  destruct Hk as (Hfiles & _ & _).
  destruct (Task.updatedFiles k !! Task.i k) as [r|]; [|done].
  unfold loop. cbn [Task.next Task.i Task.updatedFiles].
  case_match.
  - case_match; by destruct reply.
  - unfold afterLoop. cbn [Task.next Task.updatedFiles]. by case_match.
Qed.

(** No event but the reset takes a file out of the batch. *)
Lemma files_prefix s e :
  wf s → e ≠ ClickReset → files s `prefix_of` files (fire s e).
Proof.
  intros Hwf He. unfold fire. destruct (enabled e s) eqn:Hen; [|done].
  assert (∀ paths s', files s' = files s →
            files s `prefix_of` files (addFiles paths s')) as Hadd.
  { intros [|p ps] s' Hs'; [by rewrite addFiles_nil, Hs'|].
    rewrite addFiles_files, Hs'. by apply prefix_app_r. }
  destruct e as [selected|paths|fmt|now| |answer copies| |reply now| ];
    cbn [enabled handle] in *; try done.
  - unfold openFilePicker. destruct selected as [paths|p| |err]; try done.
    + by apply Hadd.
    + case_match; [by apply Hadd|done].
  - unfold onDragDrop. case_decide; [done|]. by apply Hadd.
  - apply bool_decide_eq_true in Hen.
    by destruct (handleConvert_awaiting s now Hwf Hen) as (_ & -> & _).
  - by destruct (handleDownload_frame answer copies s) as (_ & -> & _).
  - by rewrite files_resume.
  - unfold timeoutFires. by destruct (timeouts s) as [|[d [target]] rest].
Qed.

(** C7 (as amended).  Files are always added at the end of the batch as it
    is: the files already there stay, in their order and unchanged, in every
    state in which a drop is accepted, FINISHED included, and the session is
    in SELECTION afterwards.  The batch is empty in IDLE, so that files added
    there make up a batch of their own; it is emptied by reset, and no other
    event takes a file out of it. *)
Theorem added_files_are_appended :
  (∀ s p ps,
      reachable s → state s ≠ PROCESSING →
      let s' := fire s (DragDrop (p :: ps)) in
      batch s' = batch s ++ (newFile <$> p :: ps) ∧ state s' = SELECTION)
  ∧ (∀ s p ps,
        reachable s → state s = IDLE →
        batch (fire s (ClickPick (SelectedPaths (p :: ps))))
        = newFile <$> p :: ps)
  ∧ (∀ s, reachable s → state s = IDLE → batch s = [])
  ∧ (∀ s, batch (reset s) = [] ∧ state (reset s) = IDLE)
  ∧ (∀ s e, reachable s → e ≠ ClickReset →
            files s `prefix_of` files (fire s e)).
Proof.
  assert (∀ s, reachable s → state s = IDLE → batch s = []) as Hidle.
  { intros s Hreach Hst. apply reachable_wf in Hreach.
    unfold batch. by rewrite (wf_idle s Hreach Hst). }
  split; [|split; [|split; [done|split; [done|]]]].
  - intros s p ps Hreach Hst s'. unfold s'. rewrite fire_drop by done.
    split; [|done]. apply batch_addFiles. by apply reachable_wf.
  - intros s p ps Hreach Hst. rewrite fire_pick by done.
    cbn [openFilePicker]. rewrite batch_addFiles.
    + rewrite (batch_frame s) by done. by rewrite (Hidle s).
    + apply (wf_frame s); try done. by apply reachable_wf.
  - intros s e Hreach He. apply files_prefix; [by apply reachable_wf|done].
Qed.

Lemma added_files_are_appended_witness :
  let s := exec [DragDrop ["/in/a.mov"]; ClickConvert 0;
                 EngineReply (Resolved "/tmp/a.mp4") 800] init in
  let s' := fire s (DragDrop ["/in/b.png"]) in
  state s = FINISHED
  ∧ batch s' = batch s ++ (newFile <$> ["/in/b.png"]) ∧ state s' = SELECTION
  ∧ batch (fire init (ClickPick (SelectedPaths ["/in/c.wav"])))
    = newFile <$> ["/in/c.wav"]
  ∧ batch init = []
  ∧ files s `prefix_of` files s'.
Proof.
  intros s s'.
  assert (reachable s) as Hreach by (eexists; reflexivity).
  destruct added_files_are_appended as (Hdrop & Hpick & Hidle & _ & Hkeep).
  split; [reflexivity|].
  destruct (Hdrop s "/in/b.png" [] Hreach) as [Hb Hst]; [discriminate|].
  split; [exact Hb|]. split; [exact Hst|].
  split; [exact (Hpick init "/in/c.wav" [] reachable_init eq_refl)|].
  split; [exact (Hidle init reachable_init eq_refl)|].
  apply (Hkeep s (DragDrop ["/in/b.png"]) Hreach). discriminate.
Defined.

(** C7 (as stated) fails: files dropped on a batch that has reached FINISHED
    are appended to it, they do not start a batch of their own. *)
Lemma drop_on_finished_counterexample :
  let s := exec [DragDrop ["/in/a.mov"]; ClickConvert 0;
                 EngineReply (Resolved "/tmp/a.mp4") 800] init in
  let s' := fire s (DragDrop ["/in/b.png"]) in
  reachable s ∧ state s = FINISHED
  ∧ batch s' ≠ newFile <$> ["/in/b.png"]
  ∧ path <$> batch s' = ["/in/a.mov"; "/in/b.png"]
  ∧ status <$> batch s' = [Some Status.done; Some Status.pending].
Proof.
  intros s s'. split; [eexists; reflexivity|].
  split; [vm_compute; reflexivity|]. split.
  - intros Heq. apply (f_equal length) in Heq. vm_compute in Heq. discriminate.
  - split; vm_compute; reflexivity.
Qed.

(** A batch of one file has been through one run at most: files are only
    ever added to a batch that has been converted, which then has two. *)
Lemma single_file_fire s e :
  wf s → (length (files s) ≤ 1 → firstTime s) →
  length (files (fire s e)) ≤ 1 → firstTime (fire s e).
Proof.
  intros Hwf Hs Hlen.
  assert (e = ClickReset ∨ e ≠ ClickReset) as Hcase
    by (destruct e; (by left) || by right).
  destruct Hcase as [Heq|He].
  { subst e. unfold fire in *.
    destruct (enabled ClickReset s); [by intros j f|by apply Hs]. }
  pose proof (files_prefix s e Hwf He) as Hpre.
  apply prefix_length in Hpre.
  destruct (addsToFinished s e) eqn:Hadd.
  - destruct e as [ |[|p ps]| | | | | | | ]; try done.
    cbn [addsToFinished] in Hadd. apply bool_decide_eq_true in Hadd.
    rewrite fire_drop in Hlen by (by rewrite Hadd).
    rewrite addFiles_files, length_app, length_seq in Hlen.
    pose proof (wf_nonempty s Hwf) as Hne. rewrite Hadd in Hne.
    destruct (files s); [by destruct Hne|]. cbn [length] in Hlen. lia.
  - apply firstTime_fire; [done| |done]. apply Hs. lia.
Qed.

Lemma single_file_consistent s :
  reachable s → length (files s) ≤ 1 →
  Forall (λ f, is_Some (convertedPath f) ↔ status f = Some Status.done)
         (batch s).
Proof.
  intros Hreach Hlen.
  assert (wf s ∧ (length (files s) ≤ 1 → firstTime s)) as [_ Hs].
  { clear Hlen. revert s Hreach. apply reachable_invariant.
    - split; [apply wf_init|]. intros _. apply firstTime_init.
    - intros s e [Hwf Hs]. split; [by apply wf_fire|].
      by apply single_file_fire. }
  apply Forall_lookup. intros j f Hj.
  apply (expected_consistent s j f). by apply Hs.
Qed.

(** ** Export *)

Lemma head_split name :
  head (Js.split Js.isDot name) = Some (beforeFirstDot name).
Proof.
  induction name as [|c rest IH]; [done|]. cbn [Js.split beforeFirstDot].
  destruct (Js.isDot c); [done|].
  destruct (Js.split Js.isDot rest) as [|piece pieces]; [done|].
  cbn in *. by injection IH as ->.
Qed.

Lemma stem_beforeFirstDot name : stem name = beforeFirstDot name.
Proof. unfold stem, Js.first. by rewrite head_split. Qed.

Lemma saveEach_ok selectedDir todo copies s :
  Forall (λ ok, ok = true) copies →
  (saveEach selectedDir todo copies s).2 = true
  ∧ calls (saveEach selectedDir todo copies s).1
    = calls s ++ (copyOf selectedDir (format s)
                    <$> filter exportable (deref s <$> todo)).
Proof.
  revert copies s. induction todo as [|r todo IH]; intros copies s Hok.
  { cbn. by rewrite app_nil_r. }
  cbn [saveEach]. rewrite fmap_cons.
  destruct (Js.truthy (convertedPath (deref s r))
            && bool_decide (status (deref s r) = Some Status.done)) eqn:Hex.
  - apply andb_true_iff in Hex as [Hcp Hdone].
    apply bool_decide_eq_true in Hdone.
    rewrite filter_cons_True by done. rewrite fmap_cons.
    set (s' := call _ s).
    assert (Forall (λ ok, ok = true) (tail copies)) as Hok'
      by (destruct copies; [done|by apply Forall_cons_1 in Hok as [_ ?]]).
    destruct (IH (tail copies) s' Hok') as [IH1 IH2].
    destruct copies as [|[] copies].
    + split; [done|]. rewrite IH2. unfold s'. cbn [calls call format].
      by rewrite <- (assoc_L (++)).
    + split; [done|]. rewrite IH2. unfold s'. cbn [calls call format].
      by rewrite <- (assoc_L (++)).
    + by apply Forall_cons_1 in Hok as [? _].
  - rewrite filter_cons_False; [by apply IH|].
    intros [Hcp Hdone]. rewrite Hcp in Hex.
    by rewrite bool_decide_eq_true_2 in Hex.
Qed.

Lemma copies_of_dialog s c :
  isCopy c = false → copies_of (call c s) = copies_of s.
Proof.
  intros Hc. unfold copies_of. cbn [calls call]. rewrite filter_app.
  rewrite filter_cons_False; [apply app_nil_r|]. rewrite Hc. by intros [].
Qed.

(** C9 (as amended).  With more than one file in the batch, a directory
    chosen and no copy failing, the export asks for one copy per file that
    has status done and a result path that is not empty, in batch order and
    for no other file, to [<dir>/converted_<stem>.<ext>], the stem being the
    text of the name before its first dot and the extension the format in
    lower case.  With one file that has a result path, the export copies that
    result to the path chosen in the save dialog; in a batch of one file the
    result path is there exactly when the status is done.  When the dialog is
    dismissed, nothing is copied and no error is set. *)
Theorem export_copies_done_files :
  (∀ s selectedDir copies,
      1 < length (files s) → Js.truthy (Some selectedDir) = true →
      Forall (λ ok, ok = true) copies →
      let s' := handleDownload (Returned (Some selectedDir)) copies s in
      calls s' = calls s ++ open_directory
                 :: (copyOf selectedDir (format s)
                       <$> filter exportable (batch s))
      ∧ error s' = error s)
  ∧ (∀ s r savePath copies,
        files s = [r] → Js.truthy (convertedPath (deref s r)) = true →
        Js.truthy (Some savePath) = true →
        Forall (λ ok, ok = true) copies →
        let s' := handleDownload (Returned (Some savePath)) copies s in
        (∃ suggested,
            calls s' = calls s
              ++ [save_dialog suggested (format s) [Js.toLowerCase (format s)];
                  save_file_locally (default "" (convertedPath (deref s r)))
                                    savePath])
        ∧ error s' = error s)
  ∧ (∀ s r,
        reachable s → files s = [r] →
        is_Some (convertedPath (deref s r))
        ↔ status (deref s r) = Some Status.done)
  ∧ (∀ s copies,
        let s' := handleDownload (Returned None) copies s in
        copies_of s' = copies_of s ∧ error s' = error s)
  ∧ (∀ f selectedDir fmt,
        destination selectedDir fmt f
        = selectedDir +:+ "/converted_" +:+ beforeFirstDot (name f) +:+ "."
                      +:+ Js.toLowerCase fmt).
Proof.
  split; [|split; [|split; [|split]]].
  - intros s selectedDir copies Hlen Hdir Hok s'. unfold s', handleDownload.
    destruct (files s) as [|r1 [|r2 rs]] eqn:Hf; cbn [length] in Hlen; try lia.
    cbn [length Nat.eqb andb Nat.ltb Nat.leb]. rewrite Hdir.
    cbn [default files call]. rewrite Hf.
    pose proof (saveEach_ok selectedDir (r1 :: r2 :: rs) copies
                  (call open_directory s) Hok) as [Hok' Hcalls].
    pose proof (saveEach_frame selectedDir (r1 :: r2 :: rs) copies
                  (call open_directory s)) as [_ Herr].
    destruct (saveEach _ _ _ _) as [s1 ok]. cbn [fst snd] in *. subst ok.
    split; [|done]. rewrite Hcalls. cbn [calls call format].
    rewrite <- (assoc_L (++)). unfold batch. by rewrite Hf.
  - intros s r savePath copies Hf Hcp Hpath Hok s'. unfold s', handleDownload.
    rewrite Hf. cbn [length Nat.eqb lookup list_lookup default andb id].
    rewrite Hcp. unfold saveOne. rewrite Hpath. cbn [default].
    destruct copies as [|[] copies].
    + split; [|done]. eexists. cbn [calls call format].
      by rewrite <- (assoc_L (++)).
    + split; [|done]. eexists. cbn [calls call format].
      by rewrite <- (assoc_L (++)).
    + by apply Forall_cons_1 in Hok as [? _].
  - intros s r Hreach Hf.
    pose proof (single_file_consistent s Hreach) as Hall.
    rewrite Hf in Hall. specialize (Hall ltac:(cbn; lia)).
    unfold batch in Hall. rewrite Hf in Hall.
    by apply Forall_cons_1 in Hall as [? _].
  - intros s copies s'. unfold s', handleDownload.
    case_match; [|case_match]; try done.
    + unfold saveOne. cbn [Js.truthy]. split; [|done].
      by apply copies_of_dialog.
    + cbn [Js.truthy]. split; [|done]. by apply copies_of_dialog.
  - intros f selectedDir fmt. unfold destination.
    by rewrite stem_beforeFirstDot.
Qed.

Lemma export_copies_done_files_witness :
  let s := finish 0 [(Resolved "/tmp/1.png", 300%Z); (Rejected "bad", 500%Z);
                     (Resolved "/tmp/3.png", 900%Z)]
             (exec [DragDrop ["/in/a.jpg"; "/in/b.jpg"; "/in/c.jpg"]] init) in
  let one := finish 0 [(Resolved "/tmp/1.png", 300%Z)]
               (exec [DragDrop ["/in/a.jpg"]] init) in
  (statuses s = [Some Status.done; Some Status.error; Some Status.done]
   ∧ copies_of (handleDownload (Returned (Some "/out")) [] s)
     = [save_file_locally "/tmp/1.png" "/out/converted_a.png";
        save_file_locally "/tmp/3.png" "/out/converted_c.png"]
   ∧ error (handleDownload (Returned (Some "/out")) [] s) = None)
  ∧ (copies_of (handleDownload (Returned (Some "/out/x.png")) [] one)
     = [save_file_locally "/tmp/1.png" "/out/x.png"]
     ∧ error (handleDownload (Returned (Some "/out/x.png")) [] one) = None)
  ∧ (is_Some (convertedPath (deref one 0))
     ↔ status (deref one 0) = Some Status.done).
Proof.
  intros s one.
  destruct export_copies_done_files as (Hmany & Hone & Hiff & _ & _).
  split; [|split].
  - split; [vm_compute; reflexivity|].
    destruct (Hmany s "/out" []) as [Hcalls Herr];
      [vm_compute; lia|vm_compute; reflexivity|constructor|].
    unfold copies_of. rewrite Hcalls, Herr. split; vm_compute; reflexivity.
  - destruct (Hone one 0 "/out/x.png" []) as [[suggested Hcalls] Herr];
      [vm_compute; reflexivity|vm_compute; reflexivity
      |vm_compute; reflexivity|constructor|].
    unfold copies_of. rewrite Hcalls, Herr. split; vm_compute; reflexivity.
  - apply (Hiff one 0); [|vm_compute; reflexivity].
    exists [DragDrop ["/in/a.jpg"]; ClickConvert 0;
            EngineReply (Resolved "/tmp/1.png") 300; TimeoutFires].
    vm_compute; reflexivity.
Defined.

(** C9 (as stated) fails: the stem of the destination is the text before the
    first dot of the name, not the name without its extension. *)
Lemma export_stem_counterexample :
  let s := finish 0 [(Resolved "/tmp/1.png", 300%Z);
                     (Resolved "/tmp/2.png", 900%Z)]
             (exec [DragDrop ["/in/my.holiday.jpg"; "/in/b.jpg"]] init) in
  let s' := fire s (ClickDownload (Returned (Some "/out")) []) in
  reachable s ∧ state s = FINISHED
  ∧ statuses s = [Some Status.done; Some Status.done]
  ∧ copies_of s'
    = [save_file_locally "/tmp/1.png" "/out/converted_my.png";
       save_file_locally "/tmp/2.png" "/out/converted_b.png"]
  ∧ destinationByExtension "/out" (format s) <$> batch s
    = ["/out/converted_my.holiday.png"; "/out/converted_b.png"]
  ∧ copies_of s'
    ≠ (λ f, save_file_locally (default "" (convertedPath f))
              (destinationByExtension "/out" (format s) f))
        <$> filter (λ f, status f = Some Status.done) (batch s).
Proof.
  intros s s'. split.
  { exists [DragDrop ["/in/my.holiday.jpg"; "/in/b.jpg"]; ClickConvert 0;
            EngineReply (Resolved "/tmp/1.png") 300;
            EngineReply (Resolved "/tmp/2.png") 900; TimeoutFires].
    vm_compute; reflexivity. }
  do 4 (split; [vm_compute; reflexivity|]).
  intros Heq. vm_compute in Heq. discriminate.
Qed.

(** C10.  With exactly one file in the batch and no result path on it, the
    export does nothing at all: no dialog is opened, no copy is asked for and
    no error is set. *)
Theorem export_of_unconverted_single_file_is_noop :
  ∀ s r answer copies,
    files s = [r] → convertedPath (deref s r) = None →
    let s' := handleDownload answer copies s in
    s' = s ∧ calls s' = calls s ∧ error s' = error s.
Proof.
  intros s r answer copies Hf Hcp s'.
  assert (s' = s) as ->; [|done].
  unfold s', handleDownload. rewrite Hf. cbn [length Nat.eqb lookup list_lookup
    default andb Nat.ltb Nat.leb id]. by rewrite Hcp.
Qed.

Lemma export_of_unconverted_single_file_is_noop_witness :
  let s := finish 0 [(Rejected "no codec", 700%Z)]
             (exec [DragDrop ["/in/a.mov"]] init) in
  state s = FINISHED ∧ statuses s = [Some Status.error]
  ∧ handleDownload (Returned (Some "/out/a.mp4")) [] s = s
  ∧ calls (handleDownload (Returned (Some "/out/a.mp4")) [] s) = calls s
  ∧ error (handleDownload (Returned (Some "/out/a.mp4")) [] s) = error s.
Proof.
  split; [vm_compute; reflexivity|]. split; [vm_compute; reflexivity|].
  apply (export_of_unconverted_single_file_is_noop
           (finish 0 [(Rejected "no codec", 700%Z)]
              (exec [DragDrop ["/in/a.mov"]] init))
           0 (Returned (Some "/out/a.mp4")) []); vm_compute; reflexivity.
Defined.

(** * Further properties *)

(** ** The classifier and the format tables *)






Lemma extensionOf_dotted a e :
  extensionOf e = None → extensionOf (a +:+ "." +:+ e) = Some e.
Proof.
  intros He. induction a as [|c a IH].
  - change (extensionOf (String "." e) = Some e). cbn [extensionOf].
    by rewrite He.
  - change (extensionOf (String c (a +:+ "." +:+ e)) = Some e).
    cbn [extensionOf]. by rewrite IH.
Qed.

Lemma offered_formats_table t fmts :
  FORMATS t = Some fmts →
  Forall (λ fmt, extensionOf (Js.toLowerCase fmt) = None
                 ∧ typeOfExt (Some (Js.toLowerCase (Js.toLowerCase fmt)))
                   = if String.eqb fmt "GIF" then image else t) fmts.
Proof.
  destruct t; intros [= <-]; repeat (constructor; [by split|]); constructor.
Qed.

(** X2.  Every format the dropdown can offer is an extension the classifier
    knows: a file named after any stem with the lowered format as extension
    is classified in the category the format is offered for, except that
    GIF, offered for video, is classified as an image. *)
Theorem offered_formats_are_recognised :
  ∀ t fmts fmt stemText,
    FORMATS t = Some fmts → fmt ∈ fmts →
    getFileType (stemText +:+ "." +:+ Js.toLowerCase fmt)
    = if String.eqb fmt "GIF" then image else t.
Proof.
  intros t fmts fmt stemText Ht Hfmt.
  pose proof (offered_formats_table t fmts Ht) as Htable.
  rewrite Forall_forall in Htable. destruct (Htable fmt Hfmt) as [Hext Htype].
  rewrite getFileType_lastPiece. unfold lastPiece.
  by rewrite extensionOf_dotted.
Qed.

Lemma offered_formats_are_recognised_witness :
  getFileType ("my.clip" +:+ "." +:+ Js.toLowerCase "WEBM") = video
  ∧ getFileType ("loop" +:+ "." +:+ Js.toLowerCase "GIF") = image.
Proof.
  split.
  - apply (offered_formats_are_recognised video
             (default [] (FORMATS video)) "WEBM" "my.clip");
      [reflexivity|]. apply list_elem_of_In. vm_compute. tauto.
  - apply (offered_formats_are_recognised video
             (default [] (FORMATS video)) "GIF" "loop");
      [reflexivity|]. apply list_elem_of_In. vm_compute. tauto.
Defined.

(** ** The display name *)

Lemma split_last sep s :
  match afterLast sep s with
  | None => Js.split sep s = [s]
  | Some e => ∃ p ps, Js.split sep s = p :: ps ++ [e]
  end.
Proof.
  induction s as [|c rest IH]; [done|]. cbn [afterLast Js.split].
  destruct (afterLast sep rest) as [e|].
  - destruct IH as (p & ps & ->).
    destruct (sep c); [by exists "", (p :: ps)|by exists (String c p), ps].
  - rewrite IH. destruct (sep c); [by exists "", []|done].
Qed.

Lemma pop_split_sep sep s :
  Js.pop (Js.split sep s) = Some (default s (afterLast sep s)).
Proof.
  unfold Js.pop. pose proof (split_last sep s) as H.
  destruct (afterLast sep s) as [e|].
  - destruct H as (p & ps & ->).
    change (p :: ps ++ [e]) with ((p :: ps) ++ [e]). apply last_snoc.
  - by rewrite H.
Qed.

Lemma split_pieces_clean sep s :
  Forall (λ piece, anyChar sep piece = false) (Js.split sep s).
Proof.
  induction s as [|c rest IH]; [by repeat constructor|]. cbn [Js.split].
  destruct (sep c) eqn:Hc; [by constructor|].
  destruct (Js.split sep rest) as [|piece pieces].
  - repeat constructor. cbn. by rewrite Hc.
  - apply Forall_cons_1 in IH as [Hp Hps]. constructor; [|done].
    cbn. by rewrite Hc, Hp.
Qed.

Lemma afterLast_clean sep s : anyChar sep s = false → afterLast sep s = None.
Proof.
  induction s as [|c rest IH]; [done|]. cbn [anyChar afterLast].
  intros [Hc Hrest]%orb_false_iff. by rewrite IH, Hc.
Qed.

Lemma afterLast_app sep dir c base :
  sep c = true → anyChar sep base = false →
  afterLast sep (dir +:+ String c base) = Some base.
Proof.
  intros Hc Hbase. induction dir as [|d dir IH].
  - change (afterLast sep (String c base) = Some base). cbn [afterLast].
    by rewrite afterLast_clean, Hc.
  - change (afterLast sep (String d (dir +:+ String c base)) = Some base).
    cbn [afterLast]. by rewrite IH.
Qed.

Lemma newFile_name p :
  name (newFile p)
  = Js.orElse (Some (default p (afterLast Js.isSlash p))) "Unknown File".
Proof. unfold newFile. cbn [name]. by rewrite pop_split_sep. Qed.

Lemma orElse_nonempty v d : d ≠ "" → Js.orElse v d ≠ "".
Proof.
  intros Hd. unfold Js.orElse, Js.truthy. destruct v as [x|]; [|done].
  destruct (String.eqb_spec x ""); cbn; done.
Qed.

Lemma orElse_keeps x d : x ≠ "" → Js.orElse (Some x) d = x.
Proof.
  intros Hx. unfold Js.orElse, Js.truthy.
  by destruct (String.eqb_spec x "").
Qed.

(** X3.  The display name [addFiles] gives a file is never empty and holds
    no path separator.  For a path that ends in a separator followed by a
    non-empty base name without separators, and for a bare base name, it is
    that base name; for a path that ends in a separator it is the
    placeholder. *)
Theorem display_name_is_base_name :
  (∀ p, name (newFile p) ≠ ""
        ∧ anyChar Js.isSlash (name (newFile p)) = false)
  ∧ (∀ dir c base,
        Js.isSlash c = true → base ≠ "" → anyChar Js.isSlash base = false →
        name (newFile (dir +:+ String c base)) = base
        ∧ name (newFile base) = base)
  ∧ (∀ dir c, Js.isSlash c = true →
              name (newFile (dir +:+ String c "")) = "Unknown File").
Proof.
  split; [|split].
  - intros p. split.
    + unfold newFile. cbn [name]. by apply orElse_nonempty.
    + unfold newFile. cbn [name].
      pose proof (split_pieces_clean Js.isSlash p) as Hclean.
      unfold Js.orElse, Js.truthy, Js.pop.
      destruct (last (Js.split Js.isSlash p)) as [x|] eqn:Hlast; [|done].
      destruct (String.eqb x ""); [done|]. cbn [negb default].
      rewrite Forall_forall in Hclean. apply Hclean.
      apply last_Some in Hlast as [l ->]. apply elem_of_app. right.
      by apply list_elem_of_singleton.
  - intros dir c base Hc Hne Hbase. rewrite !newFile_name.
    rewrite afterLast_app, afterLast_clean by done.
    by rewrite !orElse_keeps.
  - intros dir c Hc. rewrite newFile_name.
    by rewrite afterLast_app.
Qed.

Lemma display_name_is_base_name_witness :
  (name (newFile "C:\Users\me\clip.final.mov") = "clip.final.mov"
   ∧ name (newFile "clip.final.mov") = "clip.final.mov")
  ∧ name (newFile ("/home/me" +:+ String "/" "")) = "Unknown File".
Proof.
  destruct display_name_is_base_name as (_ & Hbase & Hdir). split.
  - apply (Hbase "C:\Users\me" "\"%char "clip.final.mov");
      [reflexivity|discriminate|reflexivity].
  - apply (Hdir "/home/me" "/"%char). reflexivity.
Defined.

(** ** What the handlers do to the objects *)

Section Objects.

Variable P : FileInfo → Prop.
Variable R : FileInfo → FileInfo → Prop.

Hypothesis P_new : ∀ p, P (newFile p).
Hypothesis P_status : ∀ v f, v ≠ Status.pending → P f → P (set_status v f).
Hypothesis P_result : ∀ v f, P f → P (set_convertedPath v f).

Hypothesis R_refl : ∀ f, R f f.
Hypothesis R_trans : ∀ f g h, R f g → R g h → R f h.
Hypothesis R_status : ∀ v f, v ≠ Status.pending → R f (set_status v f).
Hypothesis R_result : ∀ v f, R f (set_convertedPath v f).

Lemma heap_write r g s :
  (∀ f, P f → P (g f)) → Forall P (heap s) → Forall P (heap (write r g s)).
Proof.
  intros Hg Hs. cbn [write with_heap heap]. apply Forall_alter; [done|].
  intros f _. apply Hg.
Qed.

Lemma heap_addFiles paths s :
  Forall P (heap s) → Forall P (heap (addFiles paths s)).
Proof.
  intros Hs. destruct paths as [|p ps]; [done|].
  rewrite addFiles_heap. apply Forall_app. split; [done|].
  apply Forall_fmap, Forall_forall. intros q _. apply P_new.
Qed.

Lemma heap_loop now k s : Forall P (heap s) → Forall P (heap (loop now k s)).
Proof.
  intros Hs. unfold loop. case_match.
  - case_match; [|done]. cbn [heap with_running call].
    apply heap_write; [|done]. intros f. by apply P_status.
  - unfold afterLoop. by case_match.
Qed.

Lemma heap_fire s e : Forall P (heap s) → Forall P (heap (fire s e)).
Proof.
  intros Hs. unfold fire. destruct (enabled e s); [|done].
  destruct e as [selected|paths|fmt|now| |answer copies| |reply now| ];
    cbn [handle]; try done.
  - unfold openFilePicker. destruct selected as [paths|p| |err]; try done.
    + by apply heap_addFiles.
    + case_match; [|done]. by apply heap_addFiles.
  - unfold onDragDrop. case_decide; [done|]. by apply heap_addFiles.
  - unfold handleConvert. case_match; [done|]. by apply heap_loop.
  - destruct (handleDownload_frame answer copies s)
      as (_ & _ & _ & _ & -> & _). done.
  - unfold resume. destruct (running s) as [k|]; [|done].
    destruct (Task.updatedFiles k !! Task.i k) as [r|]; [|done].
    apply heap_loop. destruct reply as [result|err].
    + apply heap_write; [intros f; by apply P_status|].
      apply heap_write; [intros f; by apply P_result|done].
    + apply heap_write; [intros f; by apply P_status|done].
  - unfold timeoutFires. destruct (timeouts s) as [|[d [target]] rest]; done.
Qed.

Lemma reachable_heap s : reachable s → Forall P (batch s).
Proof.
  intros Hreach. apply batch_in_heap; [by apply reachable_wf|].
  revert s Hreach. apply reachable_invariant; [by constructor|].
  intros s e. apply heap_fire.
Qed.

Lemma evolves_refl s : evolves R s s.
Proof. intros r f Hf. by exists f. Qed.

Lemma evolves_frame s s' : heap s' = heap s → evolves R s s'.
Proof. intros Hh r f Hf. exists f. by rewrite Hh. Qed.

Lemma evolves_trans s1 s2 s3 :
  evolves R s1 s2 → evolves R s2 s3 → evolves R s1 s3.
Proof.
  intros H12 H23 r f Hf. destruct (H12 r f Hf) as (g & Hg & Hfg).
  destruct (H23 r g Hg) as (h & Hh & Hgh). exists h. split; [done|].
  by apply (R_trans f g h).
Qed.

Lemma evolves_write r0 g s : (∀ f, R f (g f)) → evolves R s (write r0 g s).
Proof.
  intros Hg r f Hf. cbn [write with_heap heap]. rewrite list_lookup_alter.
  case_decide as Heq.
  - subst r0. rewrite Hf. by exists (g f).
  - by exists f.
Qed.

Lemma evolves_addFiles paths s : evolves R s (addFiles paths s).
Proof.
  destruct paths as [|p ps]; [apply evolves_refl|].
  intros r f Hf. exists f. split; [|done].
  rewrite addFiles_heap. by apply lookup_app_l_Some.
Qed.

Lemma evolves_loop now k s : evolves R s (loop now k s).
Proof.
  unfold loop. case_match.
  - case_match; [|apply evolves_refl].
    eapply evolves_trans; [|by apply evolves_frame].
    apply evolves_write. intros f. by apply R_status.
  - unfold afterLoop. case_match; by apply evolves_frame.
Qed.

Lemma evolves_fire s e : evolves R s (fire s e).
Proof.
  unfold fire. destruct (enabled e s); [|apply evolves_refl].
  destruct e as [selected|paths|fmt|now| |answer copies| |reply now| ];
    cbn [handle]; try by apply evolves_frame.
  - unfold openFilePicker. destruct selected as [paths|p| |err];
      try by apply evolves_frame.
    + eapply evolves_trans; [|apply evolves_addFiles]. by apply evolves_frame.
    + case_match; [|by apply evolves_frame].
      eapply evolves_trans; [|apply evolves_addFiles]. by apply evolves_frame.
  - unfold onDragDrop. case_decide; [apply evolves_refl|].
    apply evolves_addFiles.
  - unfold handleConvert. case_match; [apply evolves_refl|].
    eapply evolves_trans; [|apply evolves_loop]. by apply evolves_frame.
  - apply evolves_frame.
    by destruct (handleDownload_frame answer copies s)
      as (_ & _ & _ & _ & -> & _).
  - unfold resume. destruct (running s) as [k|]; [|apply evolves_refl].
    destruct (Task.updatedFiles k !! Task.i k) as [r|]; [|apply evolves_refl].
    eapply evolves_trans; [|apply evolves_loop].
    destruct reply as [result|err].
    + eapply evolves_trans; apply evolves_write; intros f;
        [apply R_result|by apply R_status].
    + apply (evolves_trans _ (console_error err s)); [by apply evolves_frame|].
      apply evolves_write. intros f. by apply R_status.
  - unfold timeoutFires.
    destruct (timeouts s) as [|[d [target]] rest]; by apply evolves_frame.
Qed.

(** The same on the batch: no event but the reset loses a file, and the file
    at each position changes at most as [R] allows. *)
Lemma batch_evolves s e j f :
  wf s → e ≠ ClickReset → batch s !! j = Some f →
  ∃ f', batch (fire s e) !! j = Some f' ∧ R f f'.
Proof.
  intros Hwf He Hj. unfold batch in Hj. rewrite list_lookup_fmap in Hj.
  destruct (files s !! j) as [r|] eqn:Hr; [|done]. injection Hj as <-.
  assert (r < length (heap s)) as Hlt.
  { pose proof (wf_valid s Hwf) as Hval. rewrite Forall_forall in Hval.
    apply Hval. by eapply list_elem_of_lookup_2. }
  destruct (lookup_lt_is_Some_2 (heap s) r Hlt) as [f Hf].
  assert (deref s r = f) as -> by (by apply list_lookup_total_correct).
  destruct (evolves_fire s e r f Hf) as (f' & Hf' & HR).
  exists f'. split; [|done].
  destruct (files_prefix s e Hwf He) as [more Hmore].
  unfold batch. rewrite list_lookup_fmap, Hmore.
  rewrite lookup_app_l by (by eapply lookup_lt_Some). rewrite Hr. cbn.
  f_equal. by apply list_lookup_total_correct.
Qed.

End Objects.

(** ** Invariants of the session *)

Lemma wellFormedFile_new p : wellFormedFile (newFile p).
Proof.
  split; [done|]. split; [done|]. split; [|by eexists].
  unfold newFile. cbn [name]. by apply orElse_nonempty.
Qed.

(** X4.  Every file of the batch, at any time, carries the name [addFiles]
    derives from its path and the category the classifier gives that name;
    its name is not empty and its status is set. *)
Theorem tracked_files_are_well_formed :
  ∀ s, reachable s →
       Forall (λ f, name f = name (newFile (path f))
                    ∧ type f = getFileType (name f)
                    ∧ name f ≠ "" ∧ is_Some (status f))
              (batch s).
Proof.
  intros s Hreach. apply (reachable_heap wellFormedFile); try done.
  - apply wellFormedFile_new.
  - intros v f _ (Hn & Ht & Hne & _). by repeat split.
Qed.

Lemma tracked_files_are_well_formed_witness :
  Forall (λ f, name f = name (newFile (path f))
               ∧ type f = getFileType (name f)
               ∧ name f ≠ "" ∧ is_Some (status f))
         (batch (exec [DragDrop ["/in/a.mov"; "/in/"]; ClickConvert 0;
                       EngineReply (Rejected "no") 5] init)).
Proof.
  apply tracked_files_are_well_formed.
  exists [DragDrop ["/in/a.mov"; "/in/"]; ClickConvert 0;
          EngineReply (Rejected "no") 5].
  reflexivity.
Defined.

Lemma sameFileLater_refl f : sameFileLater f f.
Proof. by repeat split. Qed.

Lemma sameFileLater_trans f g h :
  sameFileLater f g → sameFileLater g h → sameFileLater f h.
Proof.
  intros [(? & ? & ?) Hfg] [(? & ? & ?) Hgh].
  repeat split; try congruence. intros Hf. by apply Hgh, Hfg.
Qed.

(** X5.  No event but the reset takes a file out of the batch or moves it,
    and none changes the path, the name or the category of a file; a file
    that has left the status pending never returns to it. *)
Theorem files_stay_the_same_files :
  ∀ s e j f,
    reachable s → e ≠ ClickReset → batch s !! j = Some f →
    ∃ f', batch (fire s e) !! j = Some f'
          ∧ path f' = path f ∧ name f' = name f ∧ type f' = type f
          ∧ (status f ≠ Some Status.pending →
             status f' ≠ Some Status.pending).
Proof.
  intros s e j f Hreach He Hj. apply reachable_wf in Hreach.
  destruct (batch_evolves sameFileLater sameFileLater_refl sameFileLater_trans)
    with (s := s) (e := e) (j := j) (f := f)
    as (f' & Hf' & (Hp & Hn & Ht) & Hst); try done.
  - intros v g Hv. repeat split. cbn. congruence.
  - by exists f'.
Qed.

Lemma files_stay_the_same_files_witness :
  let s := exec [DragDrop ["/in/a.mov"]; ClickConvert 0;
                 EngineReply (Resolved "/tmp/a.mp4") 800] init in
  ∃ f', batch (fire s (DragDrop ["/in/b.png"])) !! 0 = Some f'
        ∧ path f' = "/in/a.mov" ∧ name f' = "a.mov" ∧ type f' = video
        ∧ (Some Status.done ≠ Some Status.pending →
           status f' ≠ Some Status.pending).
Proof.
  intros s.
  apply (files_stay_the_same_files s (DragDrop ["/in/b.png"]) 0 (deref s 0)).
  - eexists; reflexivity.
  - discriminate.
  - reflexivity.
Defined.

(** X6.  In every session the program can be in: the state is IDLE exactly
    when the batch is empty; a conversion is suspended only in PROCESSING,
    with no timeout pending; and a timeout is pending only in PROCESSING,
    after the loop has ended, and then it is the one pacing timeout. *)
Theorem session_shape :
  ∀ s, reachable s →
       (state s = IDLE ↔ batch s = [])
       ∧ (running s ≠ None → state s = PROCESSING ∧ timeouts s = [])
       ∧ (timeouts s ≠ [] →
          state s = PROCESSING ∧ running s = None ∧ timeouts s = [pacing]).
Proof.
  intros s Hreach. apply reachable_wf in Hreach as Hwf.
  assert (state s ≠ PROCESSING → running s = None ∧ timeouts s = []) as Hq
    by apply (wf_quiet s Hwf).
  pose proof (wf_processing s Hwf) as Hp.
  split; [|split].
  - split.
    + intros Hst. unfold batch. by rewrite (wf_idle s Hwf Hst).
    + intros Hb. destruct (decide (state s = IDLE)) as [|Hst]; [done|].
      destruct (wf_nonempty s Hwf Hst). apply (f_equal length) in Hb.
      rewrite length_batch in Hb. by destruct (files s).
  - intros Hrun. destruct (decide (state s = PROCESSING)) as [Hst|Hst].
    + split; [done|]. specialize (Hp Hst).
      destruct (running s); [by destruct Hp as (_ & _ & ?)|done].
    + by destruct (Hq Hst).
  - intros Htm. destruct (decide (state s = PROCESSING)) as [Hst|Hst].
    + split; [done|]. specialize (Hp Hst).
      destruct (running s); [by destruct Hp as (_ & _ & ?)|done].
    + by destruct (Hq Hst).
Qed.

Lemma session_shape_witness :
  let s := exec [DragDrop ["/in/a.mov"]; ClickConvert 0;
                 EngineReply (Resolved "/tmp/a.mp4") 3000] init in
  (state s = IDLE ↔ batch s = [])
  ∧ (running s ≠ None → state s = PROCESSING ∧ timeouts s = [])
  ∧ (timeouts s ≠ [] →
     state s = PROCESSING ∧ running s = None ∧ timeouts s = [pacing]).
Proof.
  intros s. apply session_shape. eexists; reflexivity.
Defined.

(** ** The format and the dropdown *)

Lemma sameIdentity_refl f : sameIdentity f f.
Proof. done. Qed.

Lemma sameIdentity_trans f g h :
  sameIdentity f g → sameIdentity g h → sameIdentity f h.
Proof. intros (? & ? & ?) (? & ? & ?). repeat split; congruence. Qed.

Lemma formatOptions_batch s s' :
  type <$> batch s' !! 0 = type <$> batch s !! 0 →
  formatOptions s' = formatOptions s.
Proof.
  unfold formatOptions, batch. rewrite !list_lookup_fmap. by intros ->.
Qed.

Lemma formatOptions_fire s e :
  wf s → files s ≠ [] → e ≠ ClickReset →
  formatOptions (fire s e) = formatOptions s.
Proof.
  intros Hwf Hne He. apply formatOptions_batch.
  destruct (batch s !! 0) as [f|] eqn:Hf.
  - destruct (batch_evolves sameIdentity sameIdentity_refl sameIdentity_trans)
      with (s := s) (e := e) (j := 0) (f := f) as (f' & -> & _ & _ & Ht);
      try done.
    cbn. by rewrite Ht.
  - apply lookup_ge_None in Hf. rewrite length_batch in Hf.
    destruct (files s); [done|cbn in Hf; lia].
Qed.

Lemma format_resume reply now s : format (resume reply now s) = format s.
Proof.
  unfold resume. destruct (running s) as [k|]; [|done].
  destruct (Task.updatedFiles k !! Task.i k) as [r|]; [|done].
  unfold loop. case_match.
  - case_match; by destruct reply.
  - unfold afterLoop. case_match; by destruct reply.
Qed.

Lemma format_fire s e :
  wf s → files s ≠ [] →
  format (fire s e) = format s
  ∨ Js.includes (formatOptions s) (format (fire s e)) = true
    ∧ ∃ fmt, e = SelectFormat fmt.
Proof.
  intros Hwf Hne. unfold fire. destruct (enabled e s) eqn:Hen; [|by left].
  destruct e as [selected|paths|fmt|now| |answer copies| |reply now| ];
    cbn [enabled handle] in *.
  - apply bool_decide_eq_true in Hen. by destruct (Hne (wf_idle s Hwf Hen)).
  - left. unfold onDragDrop. case_decide; [done|].
    by apply addFiles_format_nonempty.
  - right. apply andb_true_iff in Hen as [_ Hen]. split; [done|by eexists].
  - left. apply bool_decide_eq_true in Hen.
    by destruct (handleConvert_awaiting s now Hwf Hen) as (_ & _ & -> & _).
  - by left.
  - left. by destruct (handleDownload_frame answer copies s) as (_ & _ & -> & _).
  - by left.
  - left. apply format_resume.
  - left. unfold timeoutFires. by destruct (timeouts s) as [|[d [target]] rest].
Qed.

Lemma format_offered_first p ps s :
  files s = [] →
  Js.includes (formatOptions (addFiles (p :: ps) s))
              (format (addFiles (p :: ps) s)) = true.
Proof.
  intros Hnil. rewrite addFiles_format_empty by done.
  unfold formatOptions. rewrite addFiles_files, Hnil.
  cbn [app length seq lookup list_lookup fmap option_fmap option_map].
  unfold deref. rewrite addFiles_heap, fmap_cons.
  rewrite list_lookup_total_middle by done.
  by destruct (type (newFile p)).
Qed.

Lemma format_offered_fire s e :
  wf s →
  (state s ≠ IDLE → Js.includes (formatOptions s) (format s) = true) →
  state (fire s e) ≠ IDLE →
  Js.includes (formatOptions (fire s e)) (format (fire s e)) = true.
Proof.
  intros Hwf Hs Hst'.
  destruct (decide (files s = [])) as [Hnil|Hne].
  - assert (state s = IDLE) as Hidle.
    { destruct (decide (state s = IDLE)) as [|Hst]; [done|].
      by destruct (wf_nonempty s Hwf Hst). }
    destruct (wf_quiet s Hwf) as [Hrun Htm]; [by rewrite Hidle|].
    revert Hst'. unfold fire. destruct (enabled e s) eqn:Hen; [|done].
    destruct e as [selected|paths|fmt|now| |answer copies| |reply now| ];
      cbn [enabled handle] in *; rewrite ?Hidle, ?Hrun, ?Htm in Hen;
      try done.
    + unfold openFilePicker. destruct selected as [[|p ps]|p| |err];
        try done.
      * intros _. by apply format_offered_first.
      * case_match; [|done]. intros _. by apply format_offered_first.
    + unfold onDragDrop. rewrite decide_False by (by rewrite Hidle).
      destruct paths as [|p ps]; [done|]. intros _.
      by apply format_offered_first.
  - assert (state s ≠ IDLE) as Hst.
    { intros Hidle. by apply Hne, (wf_idle s Hwf). }
    assert (e = ClickReset ∨ e ≠ ClickReset) as [->|He]
      by (destruct e; (by left) || by right).
    + revert Hst'. unfold fire. destruct (enabled ClickReset s); [done|].
      intros _. by apply Hs.
    + rewrite formatOptions_fire by done.
      destruct (format_fire s e Hwf Hne) as [->|[Hin _]]; [by apply Hs|done].
Qed.

(** X7.  Outside IDLE the selected format is always one of the options the
    dropdown offers for the first file of the batch. *)
Theorem format_is_offered :
  ∀ s, reachable s → state s ≠ IDLE →
       Js.includes (formatOptions s) (format s) = true.
Proof.
  intros s Hreach.
  assert (wf s ∧ (state s ≠ IDLE →
                  Js.includes (formatOptions s) (format s) = true))
    as [_ Hs]; [|done].
  revert s Hreach. apply reachable_invariant; [by split; [apply wf_init|]|].
  intros s e [Hwf Hs]. split; [by apply wf_fire|].
  by apply format_offered_fire.
Qed.

Lemma format_is_offered_witness :
  let s := exec [DragDrop ["/in/a.mp3"]; SelectFormat "FLAC";
                 DragDrop ["/in/b.png"]; ClickConvert 0] init in
  format s = "FLAC" ∧ Js.includes (formatOptions s) (format s) = true.
Proof.
  intros s. split; [reflexivity|].
  apply format_is_offered; [eexists; reflexivity|discriminate].
Defined.

(** ** Starting over *)

Lemma fire_reset s :
  state s = SELECTION ∨ state s = FINISHED → fire s ClickReset = reset s.
Proof.
  intros Hst. unfold fire. cbn [enabled handle].
  by destruct Hst as [-> | ->].
Qed.

(** X8.  After Cancel or Start New, the files added next make up the whole
    batch, whatever the batch was before: the format is derived anew from
    the first of them, no error is shown, the progress is 0 and nothing is
    left running. *)
Theorem start_new_starts_fresh :
  ∀ s p ps,
    reachable s → state s = SELECTION ∨ state s = FINISHED →
    let s' := fire (fire s ClickReset) (DragDrop (p :: ps)) in
    batch s' = newFile <$> p :: ps
    ∧ format s' = autoFormat (Some (getFileType (name (newFile p))))
    ∧ state s' = SELECTION ∧ error s' = None ∧ progress s' = 0%Z
    ∧ running s' = None ∧ timeouts s' = [].
Proof.
  intros s p ps Hreach Hst s'. apply reachable_wf in Hreach as Hwf.
  assert (wf (reset s)) as Hwf'.
  { rewrite <- fire_reset by done. by apply wf_fire. }
  destruct (wf_quiet s Hwf) as [Hrun Htm]; [by destruct Hst as [-> | ->]|].
  unfold s'. rewrite fire_reset, fire_drop by done.
  destruct (addFiles_rest p ps (reset s)) as (-> & -> & -> & -> & _).
  rewrite batch_addFiles, addFiles_format_empty by done.
  by repeat split.
Qed.

Lemma start_new_starts_fresh_witness :
  let s := exec [DragDrop ["/in/a.mov"; "/in/b.mov"]; ClickConvert 0;
                 EngineReply (Rejected "no") 10;
                 EngineReply (Resolved "/tmp/b.mp4") 20] init in
  let s' := fire (fire s ClickReset) (DragDrop ["/in/c.wav"]) in
  batch s' = newFile <$> ["/in/c.wav"]
  ∧ format s' = "MP3"
  ∧ state s' = SELECTION ∧ error s' = None ∧ progress s' = 0%Z
  ∧ running s' = None ∧ timeouts s' = [].
Proof.
  intros s.
  apply (start_new_starts_fresh s "/in/c.wav" []).
  - eexists; reflexivity.
  - right. reflexivity.
Defined.

(** ** During and after a run *)

Lemma midRun_lookup b rs j f :
  length rs < length b → b !! j = Some f →
  midRun b rs !! j
  = Some (match rs !! j with
          | Some r => settle r f
          | None => if decide (j = length rs)
                    then set_status Status.converting f else f
          end).
Proof.
  intros Hlen Hj. unfold midRun.
  destruct (rs !! j) as [r|] eqn:Hr.
  - rewrite lookup_app_l
      by (rewrite length_zip_with; apply lookup_lt_Some in Hr; lia).
    by rewrite lookup_zip_with, Hr, Hj.
  - apply lookup_ge_None in Hr.
    rewrite lookup_app_r by (rewrite length_zip_with; lia).
    rewrite length_zip_with, Nat.min_l by lia.
    rewrite list_lookup_alter, !lookup_drop.
    replace (length rs + (j - length rs)) with j by lia.
    rewrite Nat.add_0_r.
    destruct (decide (j = length rs)) as [->|Hne].
    + rewrite decide_True by lia. by rewrite Hj.
    + rewrite decide_False by lia. by rewrite Hj.
Qed.

(** X9.  While a run waits for the engine's n-th reply (counting from 0),
    the session is in PROCESSING and the batch shows exactly how far the run
    is: the files already answered for are settled as their replies say, the
    n-th file has status converting, and the files after it are as they were
    before the run. *)
Theorem run_in_progress :
  ∀ s0 t0 (replies : list (Reply * Z)) j f,
    reachable s0 → state s0 = SELECTION →
    length replies < length (files s0) → batch s0 !! j = Some f →
    let s := run t0 replies s0 in
    state s = PROCESSING
    ∧ batch s !! j
      = Some (match replies.*1 !! j with
              | Some r => settle r f
              | None => if decide (j = length replies)
                        then set_status Status.converting f else f
              end).
Proof.
  intros s0 t0 rs j f Hreach Hst Hlen Hj s. apply reachable_wf in Hreach.
  destruct (run_awaiting s0 t0 rs Hreach Hst Hlen)
    as (Hst' & _ & _ & _ & _ & _ & _ & Hb & _).
  split; [done|]. unfold s. rewrite Hb.
  rewrite (midRun_lookup _ _ j f); [by rewrite length_fmap| |done].
  by rewrite length_fmap, length_batch.
Qed.

Lemma run_in_progress_witness :
  let s0 := exec [DragDrop ["/in/a.mov"; "/in/b.mov"; "/in/c.mov"]] init in
  let s := run 0 [(Resolved "/tmp/a.mp4", 10%Z)] s0 in
  state s = PROCESSING
  ∧ batch s !! 1 = Some (set_status Status.converting (newFile "/in/b.mov")).
Proof.
  intros s0.
  apply (run_in_progress s0 0 [(Resolved "/tmp/a.mp4", 10%Z)] 1
           (newFile "/in/b.mov")).
  - eexists; reflexivity.
  - reflexivity.
  - vm_compute. lia.
  - reflexivity.
Defined.

(** X10.  A run never sets the error message, whatever the engine replies:
    when it has ended no error is shown, the progress is 100, and the console
    has received the messages of the rejections, in batch order, and nothing
    else. *)
Theorem run_reports_failures_on_console_only :
  ∀ s0 t0 (replies : list (Reply * Z)),
    reachable s0 → state s0 = SELECTION →
    length replies = length (files s0) →
    let s' := finish t0 replies s0 in
    error s' = None ∧ progress s' = 100%Z
    ∧ console s' = console s0 ++ rejections replies.*1.
Proof.
  intros s0 t0 rs Hreach Hst Hlen s'. apply reachable_wf in Hreach as Hwf.
  assert (files s0 ≠ []) as Hne by (apply (wf_nonempty s0 Hwf); by rewrite Hst).
  destruct rs as [|[reply now] rs _] using rev_ind.
  { destruct (files s0); done. }
  rewrite length_app, Nat.add_1_r in Hlen.
  pose proof (run_settled s0 t0 rs reply now Hwf Hst Hlen)
    as (_ & _ & Herr & Hpr & _ & _ & _ & Hcon & Hend).
  unfold s', finish. rewrite fmap_app. cbn [fmap list_fmap fst].
  set (s1 := run t0 (rs ++ [(reply, now)]) s0) in *. clearbody s1.
  destruct (now - t0 <? 3000)%Z; destruct Hend as [Hst1 Htm1].
  - by rewrite fire_timeout_idle.
  - unfold fire. cbn [enabled handle]. rewrite Htm1.
    rewrite bool_decide_eq_true_2 by done.
    unfold timeoutFires. rewrite Htm1. by cbn [pacing].
Qed.

Lemma run_reports_failures_on_console_only_witness :
  let s0 := exec [DragDrop ["/in/a.mov"; "/in/b.mov"; "/in/c.mov"]] init in
  let s' := finish 0 [(Rejected "no codec", 10%Z);
                      (Resolved "/tmp/b.mp4", 20%Z);
                      (Rejected "disk full", 5000%Z)] s0 in
  error s' = None ∧ progress s' = 100%Z
  ∧ console s' = ["no codec"; "disk full"].
Proof.
  intros s0.
  apply (run_reports_failures_on_console_only s0 0
           [(Rejected "no codec", 10%Z); (Resolved "/tmp/b.mp4", 20%Z);
            (Rejected "disk full", 5000%Z)]).
  - eexists; reflexivity.
  - reflexivity.
  - reflexivity.
Defined.

(** ** More on the export *)

Lemma handleDownload_error answer copies s :
  error (handleDownload answer copies s) = error s
  ∨ error (handleDownload answer copies s) = Some "Failed to save file"
  ∨ error (handleDownload answer copies s) = Some "Failed to save files".
Proof.
  unfold handleDownload. case_match.
  - unfold saveOne. destruct answer as [|savePath]; [by right; left|].
    case_match; [|by left]. destruct copies as [|[] ?]; auto.
  - case_match; [|by left]. destruct answer as [|selectedDir]; [by right; right|].
    case_match; [|by left].
    pose proof (saveEach_frame (default "" selectedDir)
                  (files (call open_directory s)) copies
                  (call open_directory s)) as [_ Herr].
    destruct (saveEach _ _ _ _) as [s' []]; [by left|by right; right].
Qed.

(** X11.  The export never touches the state, the batch, the statuses, the
    format or the progress, whatever the dialog answers and whether copies
    fail or not; the error message after it is the one before or one of the
    two messages of the export. *)
Theorem export_leaves_the_session :
  ∀ s answer copies,
    let s' := fire s (ClickDownload answer copies) in
    state s' = state s ∧ batch s' = batch s ∧ statuses s' = statuses s
    ∧ format s' = format s ∧ progress s' = progress s
    ∧ (error s' = error s
       ∨ error s' = Some "Failed to save file"
       ∨ error s' = Some "Failed to save files").
Proof.
  intros s answer copies s'. unfold s', fire.
  destruct (enabled _ s); [|by repeat split; auto]. cbn [handle].
  destruct (handleDownload_frame answer copies s)
    as (Hst & Hf & Hfmt & Hpr & Hh & _).
  assert (batch (handleDownload answer copies s) = batch s) as Hb
    by (by apply batch_frame).
  unfold statuses. rewrite Hb. repeat split; try done.
  apply handleDownload_error.
Qed.

Lemma saveEach_fails selectedDir todo k rest s :
  k < length (filter exportable (deref s <$> todo)) →
  (saveEach selectedDir todo (replicate k true ++ false :: rest) s).2 = false
  ∧ calls (saveEach selectedDir todo (replicate k true ++ false :: rest) s).1
    = calls s ++ take (S k) (copyOf selectedDir (format s)
                               <$> filter exportable (deref s <$> todo)).
Proof.
  revert k s. induction todo as [|r todo IH]; intros k s Hk.
  { cbn in Hk. lia. }
  cbn [saveEach]. rewrite fmap_cons in *.
  destruct (Js.truthy (convertedPath (deref s r))
            && bool_decide (status (deref s r) = Some Status.done)) eqn:Hex.
  - apply andb_true_iff in Hex as [Hcp Hdone].
    apply bool_decide_eq_true in Hdone.
    rewrite filter_cons_True in * by done. rewrite fmap_cons.
    cbn [length] in Hk. set (s' := call _ s).
    destruct k as [|k]; cbn [replicate app tail take].
    + split; [done|]. by rewrite take_0.
    + destruct (IH k s') as [IH1 IH2].
      { change (k < length (filter exportable (deref s <$> todo))). lia. }
      split; [done|]. rewrite IH2. unfold s'. cbn [calls call format].
      by rewrite <- (assoc_L (++)).
  - rewrite filter_cons_False in *; [by apply IH| |].
    + intros [Hcp Hdone]. rewrite Hcp in Hex.
      by rewrite bool_decide_eq_true_2 in Hex.
    + intros [Hcp Hdone]. rewrite Hcp in Hex.
      by rewrite bool_decide_eq_true_2 in Hex.
Qed.

(** X12.  When a copy of the batch export fails, the export stops there: the
    copies before it have been asked for and stay, no later file is copied,
    and the one message "Failed to save files" is set.  The same message is
    set, and nothing is copied, when the directory dialog itself fails. *)
Theorem export_stops_at_first_failure :
  (∀ s selectedDir k rest,
      1 < length (files s) → Js.truthy (Some selectedDir) = true →
      k < length (filter exportable (batch s)) →
      let s' := handleDownload (Returned (Some selectedDir))
                  (replicate k true ++ false :: rest) s in
      calls s' = calls s ++ open_directory
                 :: take (S k) (copyOf selectedDir (format s)
                                  <$> filter exportable (batch s))
      ∧ error s' = Some "Failed to save files")
  ∧ (∀ s copies,
        1 < length (files s) →
        let s' := handleDownload Threw copies s in
        calls s' = calls s ++ [open_directory]
        ∧ error s' = Some "Failed to save files").
Proof.
  split.
  - intros s selectedDir k rest Hlen Hdir Hk s'. unfold s', handleDownload.
    destruct (files s) as [|r1 [|r2 rs]] eqn:Hf; cbn [length] in Hlen; try lia.
    cbn [length Nat.eqb andb Nat.ltb Nat.leb]. rewrite Hdir.
    cbn [default files call]. rewrite Hf.
    unfold batch in Hk. rewrite Hf in Hk.
    pose proof (saveEach_fails selectedDir (r1 :: r2 :: rs) k rest
                  (call open_directory s) Hk) as [Hok Hcalls].
    destruct (saveEach _ _ _ _) as [s1 ok]. cbn [fst snd] in *. subst ok.
    split; [|done]. cbn [calls setError]. rewrite Hcalls.
    cbn [calls call format]. rewrite <- (assoc_L (++)).
    unfold batch. by rewrite Hf.
  - intros s copies Hlen s'. unfold s', handleDownload.
    destruct (files s) as [|r1 [|r2 rs]] eqn:Hf; cbn [length] in Hlen; try lia.
    done.
Qed.

Lemma export_stops_at_first_failure_witness :
  let s := finish 0 [(Resolved "/tmp/1.png", 300%Z);
                     (Resolved "/tmp/2.png", 500%Z);
                     (Resolved "/tmp/3.png", 900%Z)]
             (exec [DragDrop ["/in/a.jpg"; "/in/b.jpg"; "/in/c.jpg"]] init) in
  (copies_of (handleDownload (Returned (Some "/out")) [true; false] s)
   = [save_file_locally "/tmp/1.png" "/out/converted_a.png";
      save_file_locally "/tmp/2.png" "/out/converted_b.png"]
   ∧ error (handleDownload (Returned (Some "/out")) [true; false] s)
     = Some "Failed to save files")
  ∧ (calls (handleDownload Threw [] s) = calls s ++ [open_directory]
     ∧ error (handleDownload Threw [] s) = Some "Failed to save files").
Proof.
  intros s. destruct export_stops_at_first_failure as [Hcopy Hdialog]. split.
  - destruct (Hcopy s "/out" 1 []) as [Hcalls Herr];
      [vm_compute; lia|vm_compute; reflexivity|vm_compute; lia|].
    split; [|exact Herr].
    unfold copies_of. cbn [replicate app] in Hcalls. rewrite Hcalls.
    vm_compute; reflexivity.
  - apply (Hdialog s []). vm_compute; lia.
Defined.

(** ** Nothing selected *)

(** X13.  When the file dialog gives nothing (it is dismissed, returns an
    empty path or an empty list, or throws), the session stays in IDLE with
    its batch, format and error as they were: the failure of the dialog only
    reaches the console.  Dropping an empty list of paths changes nothing in
    any state. *)
Theorem nothing_selected_changes_nothing :
  (∀ s selected,
      state s = IDLE →
      selected = SelectedNull ∨ selected = SelectedPath ""
      ∨ selected = SelectedPaths [] ∨ (∃ err, selected = SelectedThrew err) →
      let s' := fire s (ClickPick selected) in
      state s' = IDLE ∧ batch s' = batch s ∧ format s' = format s
      ∧ error s' = error s
      ∧ console s'
        = console s ++ match selected with
                       | SelectedThrew err => [err]
                       | _ => []
                       end)
  ∧ (∀ s, fire s (DragDrop []) = s).
Proof.
  split.
  - intros s selected Hst Hsel s'. unfold s'. rewrite fire_pick by done.
    destruct Hsel as [->|[->|[->|[err ->]]]]; cbn; by rewrite ?app_nil_r.
  - intros s. unfold fire. cbn [enabled handle]. unfold onDragDrop.
    by case_decide.
Qed.

Lemma nothing_selected_changes_nothing_witness :
  let s' := fire init (ClickPick (SelectedThrew "dialog unavailable")) in
  state s' = IDLE ∧ batch s' = batch init ∧ format s' = format init
  ∧ error s' = error init
  ∧ console s' = console init ++ ["dialog unavailable"].
Proof.
  apply (proj1 nothing_selected_changes_nothing init
           (SelectedThrew "dialog unavailable")).
  - reflexivity.
  - do 3 right. by eexists.
Defined.

(** ** The placeholder texts *)

Lemma funny_after_S n :
  FunnyMessages.after (S n) = FunnyMessages.tick (FunnyMessages.after n).
Proof. done. Qed.

Lemma funny_index n :
  FunnyMessages.index (FunnyMessages.after n)
  = n mod length FunnyMessages.MESSAGES
  ∧ FunnyMessages.message (FunnyMessages.after n)
    = FunnyMessages.MESSAGES !! (n mod length FunnyMessages.MESSAGES).
Proof.
  induction n as [|n [IHi IHm]]; [done|].
  rewrite funny_after_S. unfold FunnyMessages.tick.
  cbn [FunnyMessages.index FunnyMessages.message].
  rewrite IHi, Nat.Div0.add_mod_idemp_l. by rewrite Nat.add_1_r.
Qed.

(** X14.  The text shown while converting is always one of the eight
    messages, never undefined: after n ticks of the interval it is the
    message of index n modulo 8, so that the texts come round every eight
    ticks. *)
Theorem funny_messages_cycle :
  ∀ n,
    FunnyMessages.message (FunnyMessages.after n)
    = FunnyMessages.MESSAGES !! (n mod 8)
    ∧ is_Some (FunnyMessages.message (FunnyMessages.after n))
    ∧ FunnyMessages.message (FunnyMessages.after (n + 8))
      = FunnyMessages.message (FunnyMessages.after n).
Proof.
  intros n. destruct (funny_index n) as [_ Hn].
  destruct (funny_index (n + 8)) as [_ Hn8].
  change (length FunnyMessages.MESSAGES) with 8 in *.
  split; [done|]. split.
  - rewrite Hn. apply lookup_lt_is_Some.
    change (length FunnyMessages.MESSAGES) with 8.
    apply Nat.mod_upper_bound. lia.
  - rewrite Hn8, Hn. f_equal.
    rewrite <- Nat.Div0.add_mod_idemp_r. by rewrite Nat.add_0_r.
Qed.

(** ** The summary line *)

(** X15.  In IDLE the summary line is empty.  In every other state it is the
    name of the first file of the batch, followed by three dots when the
    batch has more than one file, and it is never empty. *)
Theorem file_summary_names_the_first_file :
  ∀ s, reachable s →
       (state s = IDLE → getFileSummary s = "")
       ∧ (state s ≠ IDLE →
          ∃ f, batch s !! 0 = Some f
               ∧ getFileSummary s
                 = (if decide (length (batch s) = 1) then name f
                    else name f +:+ "...")
               ∧ getFileSummary s ≠ "").
Proof.
  intros s Hreach. apply reachable_wf in Hreach as Hwf. split.
  - intros Hst. unfold getFileSummary. by rewrite (wf_idle s Hwf Hst).
  - intros Hst. pose proof (wf_nonempty s Hwf Hst) as Hne.
    assert (Forall wellFormedFile (batch s)) as Hall.
    { apply (reachable_heap wellFormedFile); try done.
      - apply wellFormedFile_new.
      - intros v f _ (Hn & Ht & Hnn & _). by repeat split. }
    unfold getFileSummary, batch in *.
    destruct (files s) as [|r [|r2 rs]]; [done| |].
    + exists (deref s r). apply Forall_cons_1 in Hall as [(_ & _ & Hn & _) _].
      by repeat split.
    + exists (deref s r). apply Forall_cons_1 in Hall as [(_ & _ & Hn & _) _].
      repeat split; try done.
      destruct (name (deref s r)); [done|]. discriminate.
Qed.

Lemma file_summary_names_the_first_file_witness :
  let s := exec [DragDrop ["/in/a.mov"; "/in/b.mov"]] init in
  (state s = IDLE → getFileSummary s = "")
  ∧ (state s ≠ IDLE →
     ∃ f, batch s !! 0 = Some f
          ∧ getFileSummary s
            = (if decide (length (batch s) = 1) then name f
               else name f +:+ "...")
          ∧ getFileSummary s ≠ "").
Proof.
  intros s. apply file_summary_names_the_first_file. eexists; reflexivity.
Defined.

(** ** Exporting a single file *)

(** X16.  With one file in the batch, the export does something only when
    that file has status done: in every session the program can be in, a
    single file that is pending, converting or failed makes the export a
    no-op, and a single file that is done has a result path. *)
Theorem single_file_export_needs_done :
  ∀ s r answer copies,
    reachable s → files s = [r] →
    (status (deref s r) ≠ Some Status.done →
     handleDownload answer copies s = s)
    ∧ (status (deref s r) = Some Status.done →
       is_Some (convertedPath (deref s r))).
Proof.
  intros s r answer copies Hreach Hf.
  pose proof (single_file_consistent s Hreach) as Hall.
  rewrite Hf in Hall. specialize (Hall ltac:(cbn; lia)).
  unfold batch in Hall. rewrite Hf in Hall.
  apply Forall_cons_1 in Hall as [[H1 H2] _]. split; [|done].
  intros Hst. unfold handleDownload. rewrite Hf.
  cbn [length Nat.eqb lookup list_lookup default andb Nat.ltb Nat.leb id].
  destruct (convertedPath (deref s r)) as [cp|] eqn:Hcp; [|done].
  destruct Hst. apply H1. by eexists.
Qed.

Lemma single_file_export_needs_done_witness :
  let s := exec [DragDrop ["/in/a.mov"]; ClickConvert 0;
                 EngineReply (Rejected "no codec") 700] init in
  (status (deref s 0) ≠ Some Status.done →
   handleDownload (Returned (Some "/out/a.mp4")) [] s = s)
  ∧ (status (deref s 0) = Some Status.done →
     is_Some (convertedPath (deref s 0))).
Proof.
  intros s.
  apply (single_file_export_needs_done s 0 (Returned (Some "/out/a.mp4")) []).
  - eexists; reflexivity.
  - reflexivity.
Defined.

(** ** Exported files come back *)

Lemma extensionOf_prefixed a b e :
  extensionOf e = None → extensionOf (a +:+ b +:+ "." +:+ e) = Some e.
Proof.
  intros He. induction a as [|c a IH].
  - by apply extensionOf_dotted.
  - change (extensionOf (String c (a +:+ b +:+ "." +:+ e)) = Some e).
    cbn [extensionOf]. by rewrite IH.
Qed.

Lemma formatOptions_table s fmt :
  Js.includes (formatOptions s) fmt = true →
  ∃ t fmts, FORMATS t = Some fmts ∧ fmt ∈ fmts.
Proof.
  unfold formatOptions. intros Hin. apply includes_elem_of in Hin.
  destruct (type <$> (deref s <$> files s !! 0)) as [[]|].
  - by exists video, (default [] (FORMATS video)).
  - by exists image, (default [] (FORMATS image)).
  - by exists audio, (default [] (FORMATS audio)).
  - by exists video, (default [] (FORMATS video)).
  - by exists video, (default [] (FORMATS video)).
Qed.

(** X17.  The name a converted file is exported under is one the classifier
    knows: outside IDLE, whatever format is selected, the file name
    [converted_<stem>.<ext>] of the export is never classified as unknown,
    so that an exported file can be added to a batch again. *)
Theorem exported_names_are_recognised :
  ∀ s selectedDir f,
    reachable s → state s ≠ IDLE →
    destination selectedDir (format s) f
    = selectedDir +:+ "/converted_" +:+ stem (name f) +:+ "."
                  +:+ Js.toLowerCase (format s)
    ∧ getFileType ("converted_" +:+ stem (name f) +:+ "."
                                +:+ Js.toLowerCase (format s))
      ≠ unknown.
Proof.
  intros s selectedDir f Hreach Hst. split; [done|].
  assert (Js.includes (formatOptions s) (format s) = true) as Hin.
  { assert (wf s ∧ (state s ≠ IDLE →
                    Js.includes (formatOptions s) (format s) = true))
      as [_ Hs]; [|by apply Hs].
    clear Hst. revert s Hreach. apply reachable_invariant;
      [by split; [apply wf_init|]|].
    intros s e [Hwf Hs]. split; [by apply wf_fire|].
    by apply format_offered_fire. }
  destruct (formatOptions_table s (format s) Hin) as (t & fmts & Ht & Hfmt).
  pose proof (offered_formats_table t fmts Ht) as Htable.
  rewrite Forall_forall in Htable.
  destruct (Htable (format s) Hfmt) as [Hext Htype].
  rewrite getFileType_lastPiece. unfold lastPiece.
  rewrite extensionOf_prefixed by done. cbn [default from_option id].
  rewrite Htype.
  destruct (String.eqb (format s) "GIF"); [done|].
  by destruct t.
Qed.

Lemma exported_names_are_recognised_witness :
  let s := exec [DragDrop ["/in/my.song.wav"]; SelectFormat "OPUS"] init in
  destination "/out" (format s) (deref s 0) = "/out/converted_my.opus"
  ∧ getFileType "converted_my.opus" ≠ unknown.
Proof.
  intros s.
  apply (exported_names_are_recognised s "/out" (deref s 0)).
  - eexists; reflexivity.
  - discriminate.
Defined.
